(** * xrm2m: JSON-RPC over SSH client for the IOS-XR M2M API

    A shallow embedding of [golang/code/src/xrm2m/jsonrpc.go] and
    [golang/code/src/xrm2m/ssh.go], together with the credential helper of
    the [xrm2m_util] package.

    Conventions.
    - A Go [error] is modelled by its description (what [Error()] returns);
      the nil error is [None].
    - A Go slice or map that may be nil is an [option]: [None] is nil.
    - A Go [interface{}] value is a [value].
    - A run-time panic is an explicit [Panic] outcome.
    - Calls into libraries that are not part of this package ([net/rpc],
      [ssh], [ioutil]) are parameters of the sections below. *)

From stdpp Require Import base strings list gmap fin_maps.
From Stdlib Require Strings.Byte Strings.String.

Local Open Scope string_scope.
Local Open Scope list_scope.
Local Set Warnings "-register-all,-clear-no-such-hyp".

(** ** Go values *)

Definition error := string.

(** Dynamic values held in an [interface{}]. *)
Inductive value :=
  | VNil
  | VBool (b : bool)
  | VNum (n : Z)
  | VStr (s : string)
  | VArr (elems : list value)
  | VObj (fields : list (string * value)).

(** [[]T] with its nil value. *)
Definition slice (A : Type) := option (list A).

(** [map[string]interface{}] with its nil value. *)
Definition object := option (gmap string value).

(** Run-time panics of the request builder. *)
Inductive panic :=
  | PanicNotString (arg : value)   (* args[i].(string) on a non-string *)
  | PanicIndexOutOfRange           (* args[i+1] past the end *)
  | PanicMsg (msg : string).       (* panic(msg) *)

Inductive outcome (A : Type) :=
  | Done (a : A)
  | Panic (p : panic).
Arguments Done {A} a.
Arguments Panic {A} p.

(** A panic cuts the rest of the computation short. *)
#[global] Instance outcome_bind : MBind outcome := λ A B k m,
  match m with
  | Done a => k a
  | Panic p => Panic p
  end.

(** ** make_request (jsonrpc.go) *)

(** The loop [for i := 0; i < len(args); i += 2] consumes the arguments two
    at a time; [request[args[i].(string)] = args[i+1]] first asserts the
    name to be a string, then indexes the value, then stores. *)
Fixpoint make_request_loop (args : list value) (request : gmap string value)
  : outcome (gmap string value) :=
  match args with
  | [] => Done request
  | name :: rest =>
      match name with
      | VStr k =>
          match rest with
          | v :: rest' => make_request_loop rest' (<[k := v]> request)
          | [] => Panic PanicIndexOutOfRange
          end
      | _ => Panic (PanicNotString name)
      end
  end.

Definition make_request (args : list value) : outcome (gmap string value) :=
  make_request_loop args ∅.

(** ** Reply shapes *)

(** The type of the [reply] variable each helper hands to [Call]. *)
Inductive shape :=
  | ShRows        (* [][]interface{} *)
  | ShObject      (* map[string]interface{} *)
  | ShObjects     (* []map[string]interface{} *)
  | ShString      (* string *)
  | ShOptString   (* *string *)
  | ShStrings     (* []string *)
  | ShAny.        (* interface{} *)

Definition reply (s : shape) : Type :=
  match s with
  | ShRows => slice (list value)
  | ShObject => object
  | ShObjects => slice (gmap string value)
  | ShString => string
  | ShOptString => option string
  | ShStrings => slice string
  | ShAny => value
  end.

(** ** The RPC client (jsonrpc.go) *)

Section Client.

(** State of the connection underneath [rpc.Client]. *)
Context {wire : Type}.

(** One synchronous round trip of [rpc.Client.Call] for a reply variable
    of shape [s]: the new connection state, the error returned and the
    content of the reply variable afterwards. *)
Variable roundtrip :
  ∀ s : shape, wire → string → gmap string value → wire * option error * reply s.

(** The embedded [rpc.Client]: its connection and the round trips made
    on it, oldest first, each with the method, the request and the error
    that came back. *)
Record rpc_client := RpcClient {
  conn : wire;
  sent : list (string * gmap string value * option error)
}.

Definition Call (s : shape) (c : rpc_client) (method : string)
    (request : gmap string value) : rpc_client * option error * reply s :=
  let '(w, err, r) := roundtrip s (conn c) method request in
  (RpcClient w (sent c ++ [(method, request, err)]), err, r).

Record M2MClient := mkM2MClient {
  Client : rpc_client;
  Error : option error;
  LastOp : string
}.

(** What [NewClient] builds around a fresh [rpc.Client]:
    [&M2MClient{*jsonrpc2.NewClient(xrs), nil, ""}]. *)
Definition new_M2MClient (w : wire) : M2MClient :=
  mkM2MClient (RpcClient w []) None "".

(** *** Helper functions to wrap individual APIs *)

Definition call_for_array_of_arrays (method : string) (args : list value)
    (m2m : M2MClient) : outcome (M2MClient * slice (list value)) :=
  match Error m2m with
  | Some _ => Done (m2m, None)
  | None =>
      request ← make_request args ;
      let '(c, err, reply) := Call ShRows (Client m2m) method request in
      Done (mkM2MClient c err method, reply)
  end.

Definition call_for_object (method : string) (args : list value)
    (m2m : M2MClient) : outcome (M2MClient * object) :=
  match Error m2m with
  | Some _ => Done (m2m, None)
  | None =>
      request ← make_request args ;
      let '(c, err, reply) := Call ShObject (Client m2m) method request in
      Done (mkM2MClient c err method, reply)
  end.

Definition call_for_array_of_objects (method : string) (args : list value)
    (m2m : M2MClient) : outcome (M2MClient * slice (gmap string value)) :=
  match Error m2m with
  | Some _ => Done (m2m, None)
  | None =>
      request ← make_request args ;
      let '(c, err, reply) := Call ShObjects (Client m2m) method request in
      Done (mkM2MClient c err method, reply)
  end.

Definition call_for_string (method : string) (args : list value)
    (m2m : M2MClient) : outcome (M2MClient * string) :=
  match Error m2m with
  | Some _ => Done (m2m, "")
  | None =>
      request ← make_request args ;
      let '(c, err, reply) := Call ShString (Client m2m) method request in
      Done (mkM2MClient c err method, reply)
  end.

Definition call_for_optional_string (method : string) (args : list value)
    (m2m : M2MClient) : outcome (M2MClient * string) :=
  match Error m2m with
  | Some _ => Done (m2m, "")
  | None =>
      request ← make_request args ;
      let '(c, err, reply) := Call ShOptString (Client m2m) method request in
      Done (mkM2MClient c err method,
            match reply with
            | None => ""
            | Some s => s
            end)
  end.

Definition call_for_string_array (method : string) (args : list value)
    (m2m : M2MClient) : outcome (M2MClient * slice string) :=
  match Error m2m with
  | Some _ => Done (m2m, None)
  | None =>
      request ← make_request args ;
      let '(c, err, reply) := Call ShStrings (Client m2m) method request in
      Done (mkM2MClient c err method, reply)
  end.

Definition call_for_void (method : string) (args : list value)
    (m2m : M2MClient) : outcome (M2MClient * unit) :=
  match Error m2m with
  | Some _ => Done (m2m, tt)
  | None =>
      request ← make_request args ;
      let '(c, err, _) := Call ShAny (Client m2m) method request in
      Done (mkM2MClient c err method, tt)
  end.

(** *** Wrappers for each individual API *)

Definition CliExec (command : string) :=
  call_for_string "cli_exec" [VStr "command"; VStr command].

Definition CliGet (command : string) :=
  call_for_array_of_arrays "cli_get" [VStr "command"; VStr command].

Definition CliSet (command : string) :=
  call_for_void "cli_set" [VStr "command"; VStr command].

Definition WriteFile (filename : string) (data : list Byte.byte) :=
  call_for_void "write_file"
    [VStr "filename"; VStr filename; VStr "data"; VStr (String.string_of_list_byte data)].

Definition Get (path : string) :=
  call_for_array_of_arrays "get" [VStr "path"; VStr path].

Definition GetChildren (path : string) :=
  call_for_string_array "get_children" [VStr "path"; VStr path].

Definition Set_ (path : string) (v : value) :=
  call_for_void "set" [VStr "path"; VStr path; VStr "value"; v].

Definition Delete (path : string) :=
  call_for_void "delete" [VStr "path"; VStr path].

Definition Replace (path : string) :=
  call_for_void "replace" [VStr "path"; VStr path].

Definition Commit (comment label : string) :=
  call_for_optional_string "commit"
    [VStr "comment"; VStr comment; VStr "label"; VStr label].

Definition CommitReplace (comment label : string) :=
  call_for_optional_string "commit_replace"
    [VStr "comment"; VStr comment; VStr "label"; VStr label].

Definition DiscardChanges :=
  call_for_void "discard_changes" [].

Definition GetChanges :=
  call_for_array_of_objects "get_changes" [].

Definition GetSchema (path fields : string) :=
  if decide (fields ≠ "")
  then call_for_object "get_schema" [VStr "path"; VStr path; VStr "fields"; VStr fields]
  else call_for_object "get_schema" [VStr "path"; VStr path].

Definition GetVersion :=
  call_for_object "get_version" [].

(** *** Sequences of typed operations *)

Inductive op :=
  | OpCliExec (command : string)
  | OpCliGet (command : string)
  | OpCliSet (command : string)
  | OpWriteFile (filename : string) (data : list Byte.byte)
  | OpGet (path : string)
  | OpGetChildren (path : string)
  | OpSet (path : string) (v : value)
  | OpDelete (path : string)
  | OpReplace (path : string)
  | OpCommit (comment label : string)
  | OpCommitReplace (comment label : string)
  | OpDiscardChanges
  | OpGetChanges
  | OpGetSchema (path fields : string)
  | OpGetVersion.

(** What a typed operation hands back to its caller. *)
Inductive result :=
  | RVoid
  | RString (s : string)
  | RStrings (l : slice string)
  | RRows (rows : slice (list value))
  | RObject (o : object)
  | RObjects (l : slice (gmap string value)).

Definition returning {A} (inj : A → result)
    (r : outcome (M2MClient * A)) : outcome (M2MClient * result) :=
  x ← r ; Done (x.1, inj x.2).

Definition run_op (o : op) (m2m : M2MClient) : outcome (M2MClient * result) :=
  match o with
  | OpCliExec command => returning RString (CliExec command m2m)
  | OpCliGet command => returning RRows (CliGet command m2m)
  | OpCliSet command => returning (λ _, RVoid) (CliSet command m2m)
  | OpWriteFile filename data => returning (λ _, RVoid) (WriteFile filename data m2m)
  | OpGet path => returning RRows (Get path m2m)
  | OpGetChildren path => returning RStrings (GetChildren path m2m)
  | OpSet path v => returning (λ _, RVoid) (Set_ path v m2m)
  | OpDelete path => returning (λ _, RVoid) (Delete path m2m)
  | OpReplace path => returning (λ _, RVoid) (Replace path m2m)
  | OpCommit comment label => returning RString (Commit comment label m2m)
  | OpCommitReplace comment label => returning RString (CommitReplace comment label m2m)
  | OpDiscardChanges => returning (λ _, RVoid) (DiscardChanges m2m)
  | OpGetChanges => returning RObjects (GetChanges m2m)
  | OpGetSchema path fields => returning RObject (GetSchema path fields m2m)
  | OpGetVersion => returning RObject (GetVersion m2m)
  end.

Fixpoint run_ops (ops : list op) (m2m : M2MClient)
  : outcome (M2MClient * list result) :=
  match ops with
  | [] => Done (m2m, [])
  | o :: ops' =>
      x ← run_op o m2m ;
      y ← run_ops ops' x.1 ;
      Done (y.1, x.2 :: y.2)
  end.

(** The zero value of each operation's result type. *)
Definition zero_result (o : op) : result :=
  match o with
  | OpCliExec _ | OpCommit _ _ | OpCommitReplace _ _ => RString ""
  | OpCliGet _ | OpGet _ => RRows None
  | OpGetChildren _ => RStrings None
  | OpGetChanges => RObjects None
  | OpGetSchema _ _ | OpGetVersion => RObject None
  | OpCliSet _ | OpWriteFile _ _ | OpSet _ _ | OpDelete _ | OpReplace _
  | OpDiscardChanges => RVoid
  end.

(** The JSON-RPC method, the argument list handed to [make_request] and
    the shape of the reply variable, per operation. *)
Definition op_method (o : op) : string :=
  match o with
  | OpCliExec _ => "cli_exec"
  | OpCliGet _ => "cli_get"
  | OpCliSet _ => "cli_set"
  | OpWriteFile _ _ => "write_file"
  | OpGet _ => "get"
  | OpGetChildren _ => "get_children"
  | OpSet _ _ => "set"
  | OpDelete _ => "delete"
  | OpReplace _ => "replace"
  | OpCommit _ _ => "commit"
  | OpCommitReplace _ _ => "commit_replace"
  | OpDiscardChanges => "discard_changes"
  | OpGetChanges => "get_changes"
  | OpGetSchema _ _ => "get_schema"
  | OpGetVersion => "get_version"
  end.

Definition op_args (o : op) : list value :=
  match o with
  | OpCliExec command | OpCliGet command | OpCliSet command =>
      [VStr "command"; VStr command]
  | OpWriteFile filename data =>
      [VStr "filename"; VStr filename; VStr "data"; VStr (String.string_of_list_byte data)]
  | OpGet path | OpGetChildren path | OpDelete path | OpReplace path =>
      [VStr "path"; VStr path]
  | OpSet path v => [VStr "path"; VStr path; VStr "value"; v]
  | OpCommit comment label | OpCommitReplace comment label =>
      [VStr "comment"; VStr comment; VStr "label"; VStr label]
  | OpDiscardChanges | OpGetChanges | OpGetVersion => []
  | OpGetSchema path fields =>
      if decide (fields ≠ "")
      then [VStr "path"; VStr path; VStr "fields"; VStr fields]
      else [VStr "path"; VStr path]
  end.

Definition op_shape (o : op) : shape :=
  match o with
  | OpCliExec _ => ShString
  | OpCommit _ _ | OpCommitReplace _ _ => ShOptString
  | OpCliGet _ | OpGet _ => ShRows
  | OpGetChildren _ => ShStrings
  | OpGetChanges => ShObjects
  | OpGetSchema _ _ | OpGetVersion => ShObject
  | OpCliSet _ | OpWriteFile _ _ | OpSet _ _ | OpDelete _ | OpReplace _
  | OpDiscardChanges => ShAny
  end.

(** How the content of the reply variable becomes the returned value. *)
Definition op_return (o : op) : reply (op_shape o) → result :=
  match o with
  | OpCliExec _ => RString
  | OpCommit _ _ | OpCommitReplace _ _ => λ r, RString (default "" r)
  | OpCliGet _ | OpGet _ => RRows
  | OpGetChildren _ => RStrings
  | OpGetChanges => RObjects
  | OpGetSchema _ _ | OpGetVersion => RObject
  | OpCliSet _ | OpWriteFile _ _ | OpSet _ _ | OpDelete _ | OpReplace _
  | OpDiscardChanges => λ _, RVoid
  end.

(** The clients a program can get to: a fresh one, then the typed
    operations of this file (code that assigns the exported fields itself
    is not covered). *)
Inductive reachable : M2MClient → Prop :=
  | reachable_new w : reachable (new_M2MClient w)
  | reachable_op m2m o m2m' r :
      reachable m2m → run_op o m2m = Done (m2m', r) → reachable m2m'.

(** The method of the most recent round trip, [""] before the first. *)
Definition last_method (calls : list (string * gmap string value * option error)) : string :=
  match last calls with
  | Some (method, _, _) => method
  | None => ""
  end.

Definition last_error (calls : list (string * gmap string value * option error)) : option error :=
  match last calls with
  | Some (_, _, err) => err
  | None => None
  end.

(** What holds of every client a program can get to: the recorded round
    trips all succeeded except possibly the last, and the two fields
    are those of the last round trip, or empty before the first. *)
Definition latch_invariant (m2m : M2MClient) : Prop :=
  Error m2m = last_error (sent (Client m2m)) ∧
  LastOp m2m = last_method (sent (Client m2m)) ∧
  ∀ i call, sent (Client m2m) !! i = Some call →
    S i < length (sent (Client m2m)) → call.2 = None.

End Client.

Arguments rpc_client : clear implicits.
Arguments M2MClient : clear implicits.

(** A scripted peer for examples: each round trip consumes the next
    scripted error and leaves the reply variable at its zero value; once
    the script is used up every call succeeds. *)
Definition zero (s : shape) : reply s :=
  match s with
  | ShRows => None
  | ShObject => None
  | ShObjects => None
  | ShString => ""
  | ShOptString => None
  | ShStrings => None
  | ShAny => VNil
  end.

Definition scripted_roundtrip (s : shape) (script : list (option error))
    (method : string) (request : gmap string value)
  : list (option error) * option error * reply s :=
  match script with
  | [] => ([], None, zero s)
  | err :: script' => (script', err, zero s)
  end.

(** ** The SSH session (ssh.go) *)

(** Simplified SSH credentials. *)
Record Creds := mkCreds {
  User : string;
  Password : string;
  Keypathname : string
}.

Inductive AuthMethod (Signer : Type) :=
  | ssh_Password (secret : string)
  | ssh_PublicKeys (key : Signer).
Arguments ssh_Password {Signer} secret.
Arguments ssh_PublicKeys {Signer} key.

Record ClientConfig (Signer : Type) := mkClientConfig {
  config_User : string;
  config_Auth : list (AuthMethod Signer);
  config_Ciphers : list string
}.
Arguments mkClientConfig {Signer} _ _ _.
Arguments config_User {Signer} _.
Arguments config_Auth {Signer} _.
Arguments config_Ciphers {Signer} _.

(** A value or a non-nil error: Go's [(T, error)] returns. *)
Inductive res (A : Type) :=
  | Ok (a : A)
  | Err (e : error).
Arguments Ok {A} a.
Arguments Err {A} e.

(** The [ssh] and [ioutil] calls the package makes, with what each gives
    back. *)
Record ssh_lib := {
  Signer : Type;
  SshClient : Type;
  Session : Type;
  Writer : Type;
  Reader : Type;
  ReadFile : string → res (list Byte.byte);
  ParsePrivateKey : list Byte.byte → res Signer;
  Dial : string → string → ClientConfig Signer → res SshClient;
  NewSession : SshClient → res Session;
  StdinPipe : Session → res Writer;
  StdoutPipe : Session → res Reader;
  Start : Session → string → option error
}.

(** What a connect attempt does to the outside world, in order. *)
Inductive event (Signer : Type) :=
  | EvReadFile (path : string)
  | EvDial (network addr : string) (config : ClientConfig Signer)
  | EvNewSession
  | EvStdinPipe
  | EvStdoutPipe
  | EvStart (cmd : string)
  | EvGo.                          (* the preamble goroutine is started *)
Arguments EvReadFile {Signer} path.
Arguments EvDial {Signer} network addr config.
Arguments EvNewSession {Signer}.
Arguments EvStdinPipe {Signer}.
Arguments EvStdoutPipe {Signer}.
Arguments EvStart {Signer} cmd.
Arguments EvGo {Signer}.

(** Everything from the dial on goes over the network. *)
Definition is_network {Signer} (ev : event Signer) : bool :=
  match ev with
  | EvDial _ _ _ | EvNewSession | EvStdinPipe | EvStdoutPipe | EvStart _ => true
  | EvReadFile _ | EvGo => false
  end.

(** A computation that performs events and returns a value or an error;
    an error ends it. *)
Record io (Signer A : Type) := IO {
  effects : list (event Signer);
  returned : res A
}.
Arguments IO {Signer A} effects returned.
Arguments effects {Signer A} _.
Arguments returned {Signer A} _.

#[global] Instance io_ret {Signer} : MRet (io Signer) := λ A a, IO [] (Ok a).

#[global] Instance io_bind {Signer} : MBind (io Signer) := λ A B k m,
  match returned m with
  | Ok a => IO (effects m ++ effects (k a)) (returned (k a))
  | Err e => IO (effects m) (Err e)
  end.

Definition perform {Signer A} (ev : event Signer) (r : res A) : io Signer A :=
  IO [ev] r.

(** [if err != nil { return nil, errors.New(prefix + err.Error()) }] *)
Definition wrapping {Signer A} (prefix : string) (m : io Signer A) : io Signer A :=
  match returned m with
  | Ok a => m
  | Err e => IO (effects m) (Err (prefix +:+ e))
  end.

Section SSH.

Context (lib : ssh_lib).

Local Abbreviation Signer := (Signer lib).

(** Represent running a long-lived command on an XR router over SSH. *)
Record XrSession := mkXrSession {
  session : Session lib;
  stdin : Writer lib;
  stdout : Reader lib;
  ready : bool
}.

(** Convert simplified credentials into something useful for the ssh
    package. *)
Definition get_auth (creds : Creds) : io Signer (list (AuthMethod Signer)) :=
  let auth : list (AuthMethod Signer) := [] in
  let auth :=
    if decide (Password creds ≠ "")
    then (auth ++ [ssh_Password (Password creds)])%list
    else auth in
  if decide (Keypathname creds ≠ "")
  then
    buf ← wrapping "Can't read private key file: "
            (perform (EvReadFile (Keypathname creds)) (ReadFile lib (Keypathname creds)));
    key ← wrapping "Can't parse private key: "
            (IO [] (ParsePrivateKey lib buf));
    mret (auth ++ [ssh_PublicKeys key])%list
  else mret auth.

Definition as_res (err : option error) : res unit :=
  match err with
  | Some e => Err e
  | None => Ok tt
  end.

(** Create an SSH session that can connect to an XR router and run one
    potentially long-lived command.  On success the handle is not ready
    and the preamble goroutine has been started. *)
Definition NewXrSession (host : string) (creds : Creds) (cmd : string)
  : io Signer XrSession :=
  auth ← get_auth creds;
  let sshConfig := mkClientConfig (User creds) auth ["aes128-ctr"; "aes128-cbc"] in
  client ← wrapping "Can't connect: "
             (perform (EvDial "tcp" host sshConfig) (Dial lib "tcp" host sshConfig));
  session ← wrapping "Can't create session: "
              (perform EvNewSession (NewSession lib client));
  stdin ← wrapping "Can't create stdin pipe: "
            (perform EvStdinPipe (StdinPipe lib session));
  stdout ← wrapping "Can't create stdout pipe: "
             (perform EvStdoutPipe (StdoutPipe lib session));
  _ ← wrapping "Can't start command: "
        (perform (EvStart cmd) (as_res (Start lib session cmd)));
  let xrsession := mkXrSession session stdin stdout false in
  _ ← perform EvGo (Ok tt);
  mret xrsession.

(** Create a JSON-RPC over SSH client session for the XR M2M API;
    [jsonrpc2_NewClient] is the codec constructor of the [jsonrpc2]
    package. *)
Definition NewClient {wire} (jsonrpc2_NewClient : XrSession → wire)
    (host : string) (creds : Creds) : io Signer (M2MClient wire) :=
  xrs ← NewXrSession host creds "run json_rpc_server";
  mret (new_M2MClient (jsonrpc2_NewClient xrs)).

(** *** The preamble goroutine and the readiness gate

    The goroutine and the callers of [Read] and [Write] run interleaved;
    every test of [ready] and every step of the goroutine is taken as
    atomic.  What the underlying stream gives on a read or write, a byte
    count and an error, is chosen by the outside world. *)

Definition stream_result : Type := nat * option error.

(** [go func() { _, err := stdout.Read(buf); if err != nil { panic(..) };
    xrsession.ready = true }()], given what [stdout.Read(buf)] returned. *)
Definition preamble_goroutine (stdout_Read : stream_result) (xrsession : XrSession)
  : outcome XrSession :=
  match stdout_Read.2 with
  | Some err => Panic (PanicMsg ("Can't read preamble: " +:+ err))
  | None =>
      Done (mkXrSession (session xrsession) (stdin xrsession) (stdout xrsession) true)
  end.

(** One pass through [for !xrs.ready { time.Sleep(..) }] followed, when
    the loop is left, by the return of the underlying stream's [Read(p)]. *)
Inductive polled :=
  | Sleeping
  | Returned (r : stream_result).

Definition Read (xrs : XrSession) (stdout_Read : stream_result) : polled :=
  if ready xrs then Returned stdout_Read else Sleeping.

Definition Write (xrs : XrSession) (stdin_Write : stream_result) : polled :=
  if ready xrs then Returned stdin_Write else Sleeping.

(** What callers and the goroutine get done, as the process runs. *)
Inductive observation :=
  | Discarded (n : nat)            (* the preamble read completed *)
  | Slept                          (* a caller found the handle not ready *)
  | ReadReturned (r : stream_result)
  | WriteReturned (r : stream_result).

(** The process after a successful connect. *)
Record process := mkProcess {
  handle : XrSession;
  preamble_pending : bool;         (* the goroutine sits in stdout.Read *)
  crashed : option panic;          (* an unrecovered panic ended the process *)
  history : list observation
}.

(** The process as [NewXrSession] leaves it: goroutine started, nothing
    observed yet. *)
Definition spawn (xrsession : XrSession) : process :=
  mkProcess xrsession true None [].

(** What happens next: the goroutine's read completes, or a caller inside
    [Read] or [Write] tests the flag; each comes with what the underlying
    stream operation gives. *)
Inductive action :=
  | PreambleRead (r : stream_result)
  | CallerRead (r : stream_result)
  | CallerWrite (r : stream_result).

Definition observe (p : process) (o : observation) : process :=
  mkProcess (handle p) (preamble_pending p) (crashed p) (history p ++ [o]).

Definition step (p : process) (a : action) : process :=
  match crashed p with
  | Some _ => p                    (* a dead process does nothing *)
  | None =>
      match a with
      | PreambleRead r =>
          if preamble_pending p
          then match preamble_goroutine r (handle p) with
               | Done xrs => mkProcess xrs false None (history p ++ [Discarded r.1])
               | Panic msg => mkProcess (handle p) false (Some msg) (history p)
               end
          else p                   (* the goroutine has already ended *)
      | CallerRead r =>
          match Read (handle p) r with
          | Sleeping => observe p Slept
          | Returned r' => observe p (ReadReturned r')
          end
      | CallerWrite r =>
          match Write (handle p) r with
          | Sleeping => observe p Slept
          | Returned r' => observe p (WriteReturned r')
          end
      end
  end.

Definition run (schedule : list action) (p : process) : process :=
  foldl step p schedule.

Definition is_caller (a : action) : bool :=
  match a with
  | PreambleRead _ => false
  | CallerRead _ | CallerWrite _ => true
  end.

(** A read that returned or a write that went out. *)
Definition is_transfer (o : observation) : bool :=
  match o with
  | ReadReturned _ | WriteReturned _ => true
  | Discarded _ | Slept => false
  end.

(** Reads and writes go through only on a ready handle, and the handle
    is ready exactly when the preamble has been discarded. *)
Definition gated (p : process) : Prop :=
  (ready (handle p) = true ↔ ∃ n, Discarded n ∈ history p) ∧
  (∀ pre o post, history p = pre ++ o :: post → is_transfer o = true →
     ∃ n, Discarded n ∈ pre).

End SSH.

Arguments handle {lib} p.
Arguments preamble_pending {lib} p.
Arguments crashed {lib} p.
Arguments history {lib} p.
Arguments ready {lib} x.
Arguments spawn {lib} xrsession.
Arguments step {lib} p a.
Arguments run {lib} schedule p.
Arguments Read {lib} xrs stdout_Read.
Arguments Write {lib} xrs stdin_Write.
Arguments preamble_goroutine {lib} stdout_Read xrsession.
Arguments gated {lib} p.

(** The stages of a connect attempt at which the ssh package is called,
    and the text put before the cause when one fails. *)
Inductive stage :=
  | AtDial
  | AtSession
  | AtStdinPipe
  | AtStdoutPipe
  | AtStart.

Definition stage_prefix (st : stage) : string :=
  match st with
  | AtDial => "Can't connect: "
  | AtSession => "Can't create session: "
  | AtStdinPipe => "Can't create stdin pipe: "
  | AtStdoutPipe => "Can't create stdout pipe: "
  | AtStart => "Can't start command: "
  end.

(** The first stage at which [lib] fails for this configuration and
    command, with the cause it gives. *)
Definition first_failure (lib : ssh_lib) (host : string)
    (config : ClientConfig (Signer lib)) (cmd : string) : option (stage * error) :=
  match Dial lib "tcp" host config with
  | Err e => Some (AtDial, e)
  | Ok client =>
      match NewSession lib client with
      | Err e => Some (AtSession, e)
      | Ok session =>
          match StdinPipe lib session with
          | Err e => Some (AtStdinPipe, e)
          | Ok _ =>
              match StdoutPipe lib session with
              | Err e => Some (AtStdoutPipe, e)
              | Ok _ =>
                  match Start lib session cmd with
                  | Some e => Some (AtStart, e)
                  | None => None
                  end
              end
          end
      end
  end.

(** ** Credentials from the environment (xrm2m_util) *)

(** [log.Fatal] ends the process with a message. *)
Inductive or_fatal (A : Type) :=
  | Fatal (msg : string)
  | Proceed (a : A).
Arguments Fatal {A} msg.
Arguments Proceed {A} a.

Definition CredsFromEnv (Getenv : string → string) : or_fatal Creds :=
  let creds := mkCreds (Getenv "SSH_USER") (Getenv "SSH_PASSWORD") (Getenv "SSH_KEYFILE") in
  if decide (User creds = "")
  then Fatal "SSH_USER environment variable must be set"
  else if decide (Password creds = "" ∧ Keypathname creds = "")
  then Fatal "At least one of SSH_PASSWORD and SSH_KEYFILE environment variables must be set"
  else Proceed creds.

(** ** A scripted ssh library for examples

    Handles are plain numbers; the key file ["id_rsa"] holds a key that
    parses, any other file is missing; the host ["router:22"] accepts the
    connection and every later stage succeeds; any other host refuses. *)
Definition demo_lib : ssh_lib := {|
  Signer := list Byte.byte;
  SshClient := nat;
  Session := nat;
  Writer := nat;
  Reader := nat;
  ReadFile := λ path,
    if decide (path = "id_rsa") then Ok [Byte.x2d; Byte.x2d] else Err "no such file";
  ParsePrivateKey := λ buf, Ok buf;
  Dial := λ _ addr _,
    if decide (addr = "router:22") then Ok 1 else Err "connection refused";
  NewSession := λ _, Ok 2;
  StdinPipe := λ _, Ok 3;
  StdoutPipe := λ _, Ok 4;
  Start := λ _ _, None
|}.

(** The same library with a session whose command cannot be started. *)
Definition demo_lib_no_start : ssh_lib := {|
  Signer := list Byte.byte;
  SshClient := nat;
  Session := nat;
  Writer := nat;
  Reader := nat;
  ReadFile := ReadFile demo_lib;
  ParsePrivateKey := ParsePrivateKey demo_lib;
  Dial := Dial demo_lib;
  NewSession := NewSession demo_lib;
  StdinPipe := StdinPipe demo_lib;
  StdoutPipe := StdoutPipe demo_lib;
  Start := λ _ _, Some "exec request failed"
|}.

Definition demo_session : XrSession demo_lib := mkXrSession demo_lib 2 3 4 false.

(** ** Further definitions used by the properties below *)

(** How many calls into the ssh package a connect attempt has made when it
    fails at a stage. *)
Definition stage_number (st : stage) : nat :=
  match st with
  | AtDial => 1
  | AtSession => 2
  | AtStdinPipe => 3
  | AtStdoutPipe => 4
  | AtStart => 5
  end.


Definition is_discarded (o : observation) : bool :=
  match o with
  | Discarded _ => true
  | Slept | ReadReturned _ | WriteReturned _ => false
  end.

(** ** Helpers of xrm2m_util and the telemetry example *)

Record TelemetryTable := mkTelemetryTable {
  Period : Z;
  Paths : slice string
}.

Record TelemetryPolicy := mkTelemetryPolicy {
  Name : string;
  Metadata : value;
  Tables : option (gmap string TelemetryTable)
}.

Record Collector := mkCollector {
  Address : string;
  Port : Z
}.

(** A call of [fmt.Println] or [fmt.Printf] with its operands, not
    rendered. *)
Inductive print :=
  | Println (operands : list value)
  | Printf (format : string) (operands : list value).

(** The line feed that Go writes as a backslash followed by n. *)
Definition newline : string := String (Ascii.ascii_of_nat 10) "".

Definition path_root : string :=
  "RootCfg.Telemetry.JSON.PolicyGroup(['main']).IPv4Address".

Section Util.

Context {wire : Type}.
Variable roundtrip :
  ∀ s : shape, wire → string → gmap string value → wire * option error * reply s.

(** [json.MarshalIndent(policy, prefix, indent)]. *)
Variable MarshalIndent : TelemetryPolicy → string → string → res (list Byte.byte).

(** [json.Marshal(collector)]: the bytes and the error. *)
Variable Marshal : Collector → list Byte.byte * option error.

(** The order in which a [range] over a map visits its entries. *)
Variable range_map : gmap string value → list (string * value).

(** Update a telemetry policy, with the policy name as file name. *)
Definition UpdateTelemetryPolicy (m2m : M2MClient wire) (policy : TelemetryPolicy)
  : outcome (M2MClient wire * unit) :=
  match Error m2m with
  | Some _ => Done (m2m, tt)
  | None =>
      let path := "/telemetry/policies/" +:+ Name policy +:+ ".policy" in
      match MarshalIndent policy "" "  " with
      | Err err => Done (mkM2MClient (Client m2m) (Some err) "UpdateTelemetryPolicy", tt)
      | Ok data => WriteFile roundtrip path data m2m
      end
  end.

(** Print any changes that would be effected with a commit. *)
Definition PrintChanges (m2m : M2MClient wire) : outcome (M2MClient wire * list print) :=
  x ← GetChanges roundtrip m2m;
  let changes := default [] x.2 in
  Done (x.1,
        if decide (0 < length changes)%nat
        then
          Println [VStr ("Changes to be committed:" +:+ newline)]
          :: flat_map
               (λ change,
                  ((λ kv, Printf ("%10s: %v" +:+ newline) [VStr kv.1; kv.2])
                     <$> range_map change)
                  ++ [Println [VStr ""]])
               changes
        else []).

(** Commit and print the outcome, including any error that happened
    before this call. *)
Definition CommitAndPrintOutcome (m2m : M2MClient wire) (label : string)
  : outcome (M2MClient wire * list print) :=
  x ← Commit roundtrip label "" m2m;
  let commit_id := x.2 in
  Done (x.1,
        match Error x.1 with
        | None =>
            if decide (commit_id = "")
            then [Println [VStr "No commit required"]]
            else [Println [VStr "New commit "; VStr commit_id]]
        | Some err =>
            [Printf ("Error during %s: %s" +:+ newline) [VStr (LastOp x.1); VStr err]]
        end).

(** The loop of [update_collectors]: one [Set] per collector, the key
    being the collector as JSON, whatever [json.Marshal] made of it. *)
Fixpoint set_collectors (collectors : list Collector) (m2m : M2MClient wire)
  : outcome (M2MClient wire) :=
  match collectors with
  | [] => Done m2m
  | collector :: rest =>
      let key := (Marshal collector).1 in
      x ← Set_ roundtrip (path_root +:+ "(" +:+ String.string_of_list_byte key +:+ ")")
            (VBool true) m2m;
      set_collectors rest x.1
  end.

(** Populate the commit buffer with the desired state for collectors,
    show the changes and commit.  [collectors] is the slice the pointer
    argument points to. *)
Definition update_collectors (m2m : M2MClient wire) (collectors : slice Collector)
  : outcome (M2MClient wire * list print) :=
  x ← Replace roundtrip path_root m2m;
  m ← set_collectors (default [] collectors) x.1;
  y ← PrintChanges m;
  z ← CommitAndPrintOutcome y.1 "telemetry bot v0.1";
  Done (z.1, y.2 ++ z.2).


End Util.

(** ** Every client the code of the repository can produce *)

Section Repository.

Context {wire : Type}.
Variable roundtrip :
  ∀ s : shape, wire → string → gmap string value → wire * option error * reply s.
Variable MarshalIndent : TelemetryPolicy → string → string → res (list Byte.byte).

(** The two fields are written by the [call_for_*] helpers, that is by
    the typed operations, and by [UpdateTelemetryPolicy]; everything else
    in the repository goes through these.  (The fields are exported: code
    outside the repository that assigns them is not covered.) *)
Inductive reachable_client : M2MClient wire → Prop :=
  | reachable_client_new w : reachable_client (new_M2MClient w)
  | reachable_client_op m2m o m2m' r :
      reachable_client m2m →
      run_op roundtrip o m2m = Done (m2m', r) →
      reachable_client m2m'
  | reachable_client_policy m2m policy m2m' :
      reachable_client m2m →
      UpdateTelemetryPolicy roundtrip MarshalIndent m2m policy = Done (m2m', tt) →
      reachable_client m2m'.

(** The round trips recorded all came back without an error. *)
Definition all_succeeded (calls : list (string * gmap string value * option error)) : Prop :=
  Forall (λ call, call.2 = None) calls.

(** What the two fields say, given the round trips made: without a
    latched error the last-operation name is that of the most recent
    round trip and all round trips succeeded; with one, either the last
    round trip returned it and carries the last-operation name, or it
    comes from marshalling a policy and no round trip failed. *)
Definition names_the_failure (m2m : M2MClient wire) : Prop :=
  Forall (λ call, ∃ o, call.1.1 = op_method o) (sent (Client m2m)) ∧
  match Error m2m with
  | None =>
      LastOp m2m = last_method (sent (Client m2m)) ∧ all_succeeded (sent (Client m2m))
  | Some e =>
      (LastOp m2m = "UpdateTelemetryPolicy" ∧ all_succeeded (sent (Client m2m))) ∨
      (∃ calls request,
         sent (Client m2m) = calls ++ [(LastOp m2m, request, Some e)] ∧
         all_succeeded calls)
  end.

End Repository.


(** * Properties *)

(** ** The request builder *)

Lemma make_request_loop_pairs (pairs : list (string * value)) (request : gmap string value) :
  make_request_loop (flat_map (λ p, [VStr p.1; p.2]) pairs) request
  = Done (foldl (λ m p, <[p.1 := p.2]> m) request pairs).
Proof.
  revert request. induction pairs as [|[k v] pairs IH]; intros request; simpl.
  - reflexivity.
  - apply IH.
Qed.

Lemma foldl_insert_lookup_last (pre post : list (string * value)) (k : string) (v : value)
    (request : gmap string value) :
  k ∉ post.*1 →
  foldl (λ m p, <[p.1 := p.2]> m) request (pre ++ (k, v) :: post) !! k = Some v.
Proof.
  intros Hk. rewrite foldl_app. simpl.
  generalize (foldl (λ m p, <[p.1 := p.2]> m) request pre). intros m.
  assert (Hm : <[k := v]> m !! k = Some v) by apply lookup_insert_eq.
  revert Hm. generalize (<[k := v]> m). clear m.
  induction post as [|[k' v'] post IH]; intros m Hm; simpl.
  - exact Hm.
  - apply IH.
    + intros Hin. apply Hk. simpl. right. exact Hin.
    + rewrite lookup_insert_ne; [exact Hm|].
      intros ->. apply Hk. simpl. left.
Qed.

Lemma foldl_insert_dom (pairs : list (string * value)) (request : gmap string value)
    (k : string) :
  k ∈ dom (foldl (λ m p, <[p.1 := p.2]> m) request pairs) ↔ k ∈ dom request ∨ k ∈ pairs.*1.
Proof.
  revert request. induction pairs as [|[k' v'] pairs IH]; intros request; simpl.
  - set_solver.
  - rewrite IH, dom_insert. set_solver.
Qed.

(** C5, as the code has it.  The pairs [("a",1),("b",2)] give the mapping
    [{a:1, b:2}].  For any list of pairs the builder returns a mapping, never
    an error: its names are those of the pairs, and a name that occurs more
    than once is bound to the value of its last occurrence. *)
Theorem request_from_pairs (pairs : list (string * value)) :
  make_request [VStr "a"; VNum 1; VStr "b"; VNum 2]
  = Done {[ "a" := VNum 1; "b" := VNum 2 ]} ∧
  ∃ request,
    make_request (flat_map (λ p, [VStr p.1; p.2]) pairs) = Done request ∧
    (∀ k, k ∈ dom request ↔ k ∈ pairs.*1) ∧
    (∀ pre k v post, pairs = pre ++ (k, v) :: post → k ∉ post.*1 →
       request !! k = Some v).
Proof.
  split.
  - reflexivity.
  - eexists. split; [apply make_request_loop_pairs|]. split.
    + intros k. rewrite foldl_insert_dom. set_solver.
    + intros pre k v post -> Hk. by apply foldl_insert_lookup_last.
Qed.

(** Counterexample to C5 as worded: a repeated name is not an error; it is
    accepted and the second value replaces the first. *)
Lemma duplicate_names_overwrite :
  make_request [VStr "a"; VNum 1; VStr "a"; VNum 2] = Done {[ "a" := VNum 2 ]} ∧
  ∀ p, make_request [VStr "a"; VNum 1; VStr "a"; VNum 2] ≠ Panic p.
Proof.
  assert (H : make_request [VStr "a"; VNum 1; VStr "a"; VNum 2]
              = Done {[ "a" := VNum 2 ]}).
  { reflexivity. }
  split; [exact H|]. intros p. by rewrite H.
Qed.

(** ** The RPC client *)

Section ClientFacts.

Context {wire : Type}.
Variable roundtrip :
  ∀ s : shape, wire → string → gmap string value → wire * option error * reply s.

Local Abbreviation run_op := (run_op roundtrip).
Local Abbreviation run_ops := (run_ops roundtrip).
Local Abbreviation reachable := (reachable roundtrip).

(** Every wrapper is one instance of the same dispatch. *)
Lemma run_op_dispatch (o : op) (m2m : M2MClient wire) :
  run_op o m2m =
  match Error m2m with
  | Some _ => Done (m2m, zero_result o)
  | None =>
      request ← make_request (op_args o);
      let '(c, err, r) := Call roundtrip (op_shape o) (Client m2m) (op_method o) request in
      Done (mkM2MClient c err (op_method o), op_return o r)
  end.
Proof.
  destruct o; simpl;
    unfold CliExec, CliGet, CliSet, WriteFile, Get, GetChildren, Set_, Delete,
      Replace, Commit, CommitReplace, DiscardChanges, GetChanges, GetSchema,
      GetVersion;
    try case_decide;
    unfold call_for_array_of_arrays, call_for_object, call_for_array_of_objects,
      call_for_string, call_for_optional_string, call_for_string_array,
      call_for_void, returning;
    destruct (Error m2m); try reflexivity;
    simpl; match goal with |- context [Call roundtrip ?s ?c ?m ?r] =>
             destruct (Call roundtrip s c m r) as [[? ?] ?] end;
    try reflexivity.
Qed.

Lemma op_args_pairs (o : op) :
  ∃ pairs : list (string * value), op_args o = flat_map (λ p, [VStr p.1; p.2]) pairs.
Proof.
  destruct o; simpl; try case_decide;
    first
      [ by exists []
      | by eexists [(_, _)]
      | by eexists [(_, _); (_, _)] ].
Qed.

Lemma op_args_request (o : op) : ∃ request, make_request (op_args o) = Done request.
Proof.
  destruct (op_args_pairs o) as [pairs ->].
  eexists. apply make_request_loop_pairs.
Qed.

Lemma Call_sent (s : shape) (c : rpc_client wire) (method : string)
    (request : gmap string value) :
  sent (Call roundtrip s c method request).1.1
  = sent c ++ [(method, request, (Call roundtrip s c method request).1.2)].
Proof.
  unfold Call. destruct (roundtrip s (conn c) method request) as [[w err] r].
  reflexivity.
Qed.

(** On a client without a latched error the operation makes exactly one
    round trip and records its error and its method. *)
Lemma run_op_clean (o : op) (m2m : M2MClient wire) :
  Error m2m = None →
  ∃ request m2m' r,
    make_request (op_args o) = Done request ∧
    run_op o m2m = Done (m2m', r) ∧
    sent (Client m2m') = sent (Client m2m) ++ [(op_method o, request, Error m2m')] ∧
    LastOp m2m' = op_method o.
Proof.
  intros Hclean. destruct (op_args_request o) as [request Hreq].
  rewrite run_op_dispatch, Hclean, Hreq. simpl.
  pose proof (Call_sent (op_shape o) (Client m2m) (op_method o) request) as Hsent.
  destruct (Call roundtrip (op_shape o) (Client m2m) (op_method o) request)
    as [[c err] r].
  exists request. eexists. eexists. repeat split. exact Hsent.
Qed.

(** On a client with a latched error the operation does nothing. *)
Lemma run_op_latched (o : op) (m2m : M2MClient wire) (e : error) :
  Error m2m = Some e → run_op o m2m = Done (m2m, zero_result o).
Proof. intros Hlatched. by rewrite run_op_dispatch, Hlatched. Qed.

Lemma run_ops_latched (ops : list op) (m2m : M2MClient wire) (e : error) :
  Error m2m = Some e → run_ops ops m2m = Done (m2m, zero_result <$> ops).
Proof.
  intros Hlatched. induction ops as [|o ops IH]; simpl.
  - reflexivity.
  - rewrite (run_op_latched o m2m e Hlatched). simpl. rewrite IH. reflexivity.
Qed.

Lemma run_op_total (o : op) (m2m : M2MClient wire) :
  ∃ m2m' r, run_op o m2m = Done (m2m', r).
Proof.
  destruct (Error m2m) as [e|] eqn:He.
  - eauto using run_op_latched.
  - destruct (run_op_clean o m2m He) as (? & m2m' & r & _ & Hrun & _). eauto.
Qed.

Lemma run_ops_total (ops : list op) (m2m : M2MClient wire) :
  ∃ m2m' rs, run_ops ops m2m = Done (m2m', rs).
Proof.
  revert m2m. induction ops as [|o ops IH]; intros m2m; simpl.
  - eauto.
  - destruct (run_op_total o m2m) as (m1 & r & ->). simpl.
    destruct (IH m1) as (m2 & rs & ->). simpl. eauto.
Qed.

Lemma run_ops_app (ops1 ops2 : list op) (m2m : M2MClient wire) :
  run_ops (ops1 ++ ops2) m2m =
  x ← run_ops ops1 m2m;
  y ← run_ops ops2 x.1;
  Done (y.1, x.2 ++ y.2).
Proof.
  revert m2m. induction ops1 as [|o ops1 IH]; intros m2m; simpl.
  - destruct (run_ops ops2 m2m) as [[m rs]|]; reflexivity.
  - destruct (run_op o m2m) as [[m1 r]|]; simpl; [|reflexivity].
    rewrite IH. destruct (run_ops ops1 m1) as [[m2 rs1]|]; simpl; [|reflexivity].
    destruct (run_ops ops2 m2) as [[m3 rs2]|]; reflexivity.
Qed.

(** C1.  Latch-once: in a sequence of typed operations in which [k] is
    the first to produce an error, every later operation is run on the
    client exactly as [k] left it and leaves it so (in particular the
    connection and the list of round trips made are untouched: [Call] is
    not invoked), returns the zero value of its result type, and at the
    end the latched error and the last-operation name are those set by
    [k]. *)
Theorem latch_once (pre post : list op) (k : op) (m0 m1 m2 : M2MClient wire)
    (rs1 : list result) (r : result) (e : error) :
  run_ops pre m0 = Done (m1, rs1) →
  Error m1 = None →
  run_op k m1 = Done (m2, r) →
  Error m2 = Some e →
  LastOp m2 = op_method k ∧
  (∀ o, o ∈ post → run_op o m2 = Done (m2, zero_result o)) ∧
  run_ops post m2 = Done (m2, zero_result <$> post) ∧
  ∃ m3, run_ops (pre ++ k :: post) m0 = Done (m3, rs1 ++ r :: (zero_result <$> post)) ∧
        Client m3 = Client m2 ∧ Error m3 = Some e ∧ LastOp m3 = op_method k.
Proof.
  intros Hpre Hclean Hk Hlatched.
  assert (Hop : LastOp m2 = op_method k).
  { destruct (run_op_clean k m1 Hclean) as (? & m2' & r' & _ & Hrun & _ & Hlast).
    rewrite Hk in Hrun. by injection Hrun as -> ->. }
  split; [exact Hop|].
  split; [intros o _; by eapply run_op_latched|].
  split; [by eapply run_ops_latched|].
  exists m2. split; [|done].
  rewrite run_ops_app, Hpre. simpl. rewrite Hk. simpl.
  by rewrite (run_ops_latched post m2 e Hlatched).
Qed.

Lemma latch_invariant_new (w : wire) : latch_invariant (new_M2MClient w).
Proof. repeat split. intros i call Hi. by destruct i. Qed.

Lemma latch_invariant_step (o : op) (m2m m2m' : M2MClient wire) (r : result) :
  latch_invariant m2m → run_op o m2m = Done (m2m', r) → latch_invariant m2m'.
Proof.
  intros (Herr & Hop & Hearlier) Hrun.
  destruct (Error m2m) as [e|] eqn:He.
  - rewrite (run_op_latched o m2m e He) in Hrun. injection Hrun as <- _.
    unfold latch_invariant. by rewrite He.
  - destruct (run_op_clean o m2m He) as (request & m & r' & _ & Hrun' & Hsent & Hlast).
    rewrite Hrun in Hrun'. injection Hrun' as <- <-.
    unfold latch_invariant, last_error, last_method.
    rewrite Hsent, last_snoc. repeat split; [done|].
    intros i call Hi Hlen. rewrite length_app in Hlen. simpl in Hlen.
    rewrite lookup_app_l in Hi by lia.
    destruct (decide (S i < length (sent (Client m2m)))) as [Hlt|Hge].
    + by eapply Hearlier.
    + assert (Hi' : last (sent (Client m2m)) = Some call).
      { rewrite last_lookup. rewrite <- Hi. f_equal. lia. }
      unfold last_error in Herr. rewrite Hi' in Herr.
      destruct call as [[? ?] err]. simpl. congruence.
Qed.

Lemma reachable_latch_invariant (m2m : M2MClient wire) :
  reachable m2m → latch_invariant m2m.
Proof.
  induction 1 as [w|m o m' r _ IH Hrun].
  - apply latch_invariant_new.
  - by eapply latch_invariant_step.
Qed.

(** For a client driven by the typed operations alone: a latched error
    never resets (every further sequence of operations leaves the client
    as it is); the last-operation name is empty exactly as long as no
    round trip has been made and otherwise names the method of the most
    recent round trip, whether or not it failed; and when an error is
    latched that round trip is the one that returned it, all earlier
    ones having succeeded. *)
Lemma typed_operations_latch (m2m : M2MClient wire) :
  reachable m2m →
  (∀ e ops, Error m2m = Some e →
     ∃ rs, run_ops ops m2m = Done (m2m, rs)) ∧
  (sent (Client m2m) = [] → Error m2m = None ∧ LastOp m2m = "") ∧
  (∀ calls method request err, sent (Client m2m) = calls ++ [(method, request, err)] →
     LastOp m2m = method ∧ Error m2m = err ∧ Forall (λ call, call.2 = None) calls).
Proof.
  intros Hreach.
  destruct (reachable_latch_invariant m2m Hreach) as (Herr & Hop & Hearlier).
  split; [|split].
  - intros e ops He. eexists. by eapply run_ops_latched.
  - intros Hnone. unfold last_error, last_method in *. by rewrite Hnone in *.
  - intros calls method request err Hsent.
    unfold last_error, last_method in *. rewrite Hsent, last_snoc in *.
    repeat split; [done..|].
    apply Forall_lookup. intros i call Hi.
    apply (Hearlier i call).
    + by apply lookup_app_l_Some.
    + apply lookup_lt_Some in Hi. rewrite length_app. simpl. lia.
Qed.

(** C6.  A commit on a clean client produces [""] with the client still
    clean when the round trip succeeds with a null revision id, and
    latches the error when the round trip fails: the two outcomes differ
    in the client's error. *)
Theorem commit_without_change_is_success (replace : bool) (comment label : string)
    (m2m : M2MClient wire) :
  Error m2m = None →
  (∀ w,
     roundtrip ShOptString (conn (Client m2m))
       (if replace then "commit_replace" else "commit")
       (<["label" := VStr label]> (<["comment" := VStr comment]> ∅)) = (w, None, None) →
     ∃ m2m',
       (if replace then CommitReplace roundtrip else Commit roundtrip) comment label m2m
       = Done (m2m', "") ∧
       Error m2m' = None) ∧
  (∀ w e revision,
     roundtrip ShOptString (conn (Client m2m))
       (if replace then "commit_replace" else "commit")
       (<["label" := VStr label]> (<["comment" := VStr comment]> ∅)) = (w, Some e, revision) →
     ∃ m2m' id,
       (if replace then CommitReplace roundtrip else Commit roundtrip) comment label m2m
       = Done (m2m', id) ∧
       Error m2m' = Some e).
Proof.
  intros Hclean. split.
  - intros w Hrt. destruct replace;
      unfold CommitReplace, Commit, call_for_optional_string, Call;
      rewrite Hclean; simpl; rewrite Hrt; eauto.
  - intros w e revision Hrt. destruct replace;
      unfold CommitReplace, Commit, call_for_optional_string, Call;
      rewrite Hclean; simpl; rewrite Hrt; eauto.
Qed.

(** C10.  Every typed operation hands the request builder an argument
    list of even length whose even positions hold strings (the literal
    argument names), so the builder returns a request without a panic,
    and so does the operation, whatever the state of the client; on a
    clean client that request is the one sent. *)
Theorem typed_operations_never_panic (o : op) :
  Nat.Even (length (op_args o)) ∧
  (∀ i, Nat.Even i → i < length (op_args o) →
     ∃ name, op_args o !! i = Some (VStr name) ∧
             name ∈ ["command"; "filename"; "data"; "path"; "value";
                     "comment"; "label"; "fields"]) ∧
  (∃ request, make_request (op_args o) = Done request ∧
     ∀ m2m, Error m2m = None →
       ∃ m2m' r, run_op o m2m = Done (m2m', r) ∧
         sent (Client m2m') = sent (Client m2m) ++ [(op_method o, request, Error m2m')]) ∧
  (∀ m2m, ∃ m2m' r, run_op o m2m = Done (m2m', r)).
Proof.
  split; [|split; [|split]].
  - destruct o; simpl; try case_decide; simpl;
      first [by exists 0 | by exists 1 | by exists 2].
  - intros i [j ->] Hlt.
    destruct o; simpl in *; try case_decide; simpl in *;
      destruct j as [|[|j]]; simpl in *; try lia;
      eexists; (split; [reflexivity|]); set_solver.
  - destruct (op_args_request o) as [request Hreq]. exists request.
    split; [exact Hreq|]. intros m2m Hclean.
    destruct (run_op_clean o m2m Hclean) as (request' & m2m' & r & Hreq' & Hrun & Hsent & _).
    rewrite Hreq in Hreq'. injection Hreq' as <-. eauto.
  - apply run_op_total.
Qed.

End ClientFacts.

(** ** The SSH session *)

Lemma stage_message_inj (st st' : stage) (cause cause' : error) :
  stage_prefix st +:+ cause = stage_prefix st' +:+ cause' → st = st' ∧ cause = cause'.
Proof. destruct st, st'; simpl; intros H; by simplify_eq. Qed.

Lemma history_snoc_gate (h : list observation) (o : observation) (P : list observation → Prop) :
  (∀ pre post, P pre → P (pre ++ post)) →
  (∀ pre o' post, h = pre ++ o' :: post → is_transfer o' = true → P pre) →
  (is_transfer o = true → P h) →
  ∀ pre o' post, h ++ [o] = pre ++ o' :: post → is_transfer o' = true → P pre.
Proof.
  intros Hmono Hh Ho pre o' post Heq Ht.
  destruct post as [|x post _] using rev_ind.
  - apply app_inj_tail in Heq as [-> ->]. by apply Ho.
  - rewrite app_comm_cons, app_assoc in Heq.
    apply app_inj_tail in Heq as [-> _]. by eapply Hh.
Qed.

Section SSHFacts.

Context (lib : ssh_lib).

Local Abbreviation ciphers := ["aes128-ctr"; "aes128-cbc"].

(** The methods [get_auth] has collected before it turns to the key. *)
Local Abbreviation password_methods creds :=
  (if decide (Password creds ≠ "")
   then [ssh_Password (Signer := Signer lib) (Password creds)]
   else []).

Lemma get_auth_cases (creds : Creds) :
  get_auth lib creds =
  if decide (Keypathname creds ≠ "")
  then match ReadFile lib (Keypathname creds) with
       | Err e =>
           IO [EvReadFile (Keypathname creds)] (Err ("Can't read private key file: " +:+ e))
       | Ok buf =>
           match ParsePrivateKey lib buf with
           | Err e =>
               IO [EvReadFile (Keypathname creds)] (Err ("Can't parse private key: " +:+ e))
           | Ok key =>
               IO [EvReadFile (Keypathname creds)]
                  (Ok (password_methods creds ++ [ssh_PublicKeys key]))
           end
       end
  else IO [] (Ok (password_methods creds)).
Proof.
  unfold get_auth. case_decide as Hkey; [|reflexivity].
  unfold mbind, io_bind, wrapping, perform. simpl.
  destruct (ReadFile lib (Keypathname creds)) as [buf|e]; simpl; [|reflexivity].
  destruct (ParsePrivateKey lib buf) as [key|e]; reflexivity.
Qed.

Lemma NewXrSession_auth_failure (host : string) (creds : Creds) (cmd : string)
    (evs : list (event (Signer lib))) (e : error) :
  get_auth lib creds = IO evs (Err e) →
  NewXrSession lib host creds cmd = IO evs (Err e).
Proof. intros Hauth. unfold NewXrSession, mbind, io_bind. by rewrite Hauth. Qed.

(** What a connect attempt does once the methods are there. *)
Lemma NewXrSession_after_auth (host : string) (creds : Creds) (cmd : string)
    (evs : list (event (Signer lib))) (auth : list (AuthMethod (Signer lib))) :
  get_auth lib creds = IO evs (Ok auth) →
  ∃ rest,
    effects (NewXrSession lib host creds cmd)
    = evs ++ EvDial "tcp" host (mkClientConfig (User creds) auth ciphers) :: rest ∧
    match first_failure lib host (mkClientConfig (User creds) auth ciphers) cmd with
    | Some (st, cause) =>
        returned (NewXrSession lib host creds cmd) = Err (stage_prefix st +:+ cause) ∧
        EvGo ∉ rest
    | None =>
        (∃ xrs, returned (NewXrSession lib host creds cmd) = Ok xrs ∧ ready xrs = false) ∧
        rest = [EvNewSession; EvStdinPipe; EvStdoutPipe; EvStart cmd; EvGo]
    end.
Proof.
  intros Hauth. unfold NewXrSession, first_failure, mbind, io_bind.
  rewrite Hauth. unfold wrapping, perform, as_res. simpl.
  destruct (Dial lib "tcp" host _) as [client|e]; simpl.
  2: { eexists. split; [reflexivity|]. split; [reflexivity|]. set_solver. }
  destruct (NewSession lib client) as [session|e]; simpl.
  2: { eexists. split; [reflexivity|]. split; [reflexivity|]. set_solver. }
  destruct (StdinPipe lib session) as [stdin|e]; simpl.
  2: { eexists. split; [reflexivity|]. split; [reflexivity|]. set_solver. }
  destruct (StdoutPipe lib session) as [stdout|e]; simpl.
  2: { eexists. split; [reflexivity|]. split; [reflexivity|]. set_solver. }
  destruct (Start lib session cmd) as [e|]; simpl.
  { eexists. split; [reflexivity|]. split; [reflexivity|]. set_solver. }
  eexists. split; [reflexivity|]. split; [|reflexivity]. eexists. by split.
Qed.

Lemma NewClient_effects {wire} (jsonrpc2_NewClient : XrSession lib → wire)
    (host : string) (creds : Creds) :
  effects (NewClient lib jsonrpc2_NewClient host creds)
  = effects (NewXrSession lib host creds "run json_rpc_server") ∧
  (∀ e, returned (NewXrSession lib host creds "run json_rpc_server") = Err e →
        returned (NewClient lib jsonrpc2_NewClient host creds) = Err e).
Proof.
  unfold NewClient, mbind, io_bind.
  destruct (returned (NewXrSession lib host creds "run json_rpc_server")) as [xrs|e];
    simpl.
  - split; [apply app_nil_r|]. intros e He. discriminate He.
  - split; [reflexivity|]. intros e' He. by injection He as ->.
Qed.

(** C8.  [get_auth] builds the method list from the credentials alone:
    without a key path it returns, with no error and without touching the
    file system, the password method if the password is non-empty and
    nothing otherwise; with a key path whose file reads and parses it
    returns that list followed by the public-key method for the parsed
    key.  So a list it returns holds a password method exactly when the
    password is non-empty and a public-key method exactly when the key
    path is non-empty, the password method first, and the dial is made
    with exactly that list.  When the key file cannot be read or parsed,
    the connect attempt fails with an error naming the cause and nothing
    is dialled: the key method is not skipped. *)
Theorem auth_methods_from_credentials (host : string) (creds : Creds) (cmd : string) :
  (Keypathname creds = "" →
   get_auth lib creds = IO [] (Ok (password_methods creds))) ∧
  (Keypathname creds ≠ "" →
   ∀ buf key, ReadFile lib (Keypathname creds) = Ok buf →
     ParsePrivateKey lib buf = Ok key →
     get_auth lib creds
     = IO [EvReadFile (Keypathname creds)]
          (Ok (password_methods creds ++ [ssh_PublicKeys key]))) ∧
  (∀ evs auth, get_auth lib creds = IO evs (Ok auth) →
     ((∃ secret, ssh_Password secret ∈ auth) ↔ Password creds ≠ "") ∧
     ((∃ key, ssh_PublicKeys key ∈ auth) ↔ Keypathname creds ≠ "") ∧
     (∃ keys,
        auth = password_methods creds ++ (ssh_PublicKeys <$> keys) ∧
        if decide (Keypathname creds ≠ "")
        then ∃ buf key, keys = [key] ∧
               ReadFile lib (Keypathname creds) = Ok buf ∧
               ParsePrivateKey lib buf = Ok key
        else keys = []) ∧
     ∃ rest,
       effects (NewXrSession lib host creds cmd)
       = evs ++ EvDial "tcp" host (mkClientConfig (User creds) auth ciphers) :: rest) ∧
  (Keypathname creds ≠ "" →
   ∀ cause, ReadFile lib (Keypathname creds) = Err cause →
     NewXrSession lib host creds cmd
     = IO [EvReadFile (Keypathname creds)]
          (Err ("Can't read private key file: " +:+ cause))) ∧
  (Keypathname creds ≠ "" →
   ∀ buf cause, ReadFile lib (Keypathname creds) = Ok buf →
     ParsePrivateKey lib buf = Err cause →
     NewXrSession lib host creds cmd
     = IO [EvReadFile (Keypathname creds)]
          (Err ("Can't parse private key: " +:+ cause))).
Proof.
  pose proof (get_auth_cases creds) as Hcases.
  split; [|split; [|split; [|split]]].
  - intros Hkey. rewrite Hcases. by rewrite decide_False by (by intros ?).
  - intros Hkey buf key Hread Hparse.
    rewrite Hcases, decide_True by done. by rewrite Hread, Hparse.
  - intros evs auth Hauth.
    destruct (NewXrSession_after_auth host creds cmd evs auth Hauth) as (rest & Heff & _).
    rewrite Hauth in Hcases.
    destruct (decide (Keypathname creds ≠ "")) as [Hkey|Hkey].
    + destruct (ReadFile lib (Keypathname creds)) as [buf|e]; [|done].
      destruct (ParsePrivateKey lib buf) as [key|e] eqn:Hparse; [|done].
      injection Hcases as -> ->.
      split; [|split; [|split]].
      * case_decide; set_solver.
      * split; [done|]. intros _. exists key. set_solver.
      * exists [key]. split; [done|]. eauto.
      * eauto.
    + injection Hcases as -> ->.
      split; [|split; [|split]].
      * case_decide; set_solver.
      * split; [|done]. intros [key Hin]. case_decide; set_solver.
      * exists []. split; [|done]. simpl. by rewrite app_nil_r.
      * eauto.
  - intros Hkey cause Hread. apply NewXrSession_auth_failure.
    rewrite Hcases, decide_True by done. by rewrite Hread.
  - intros Hkey buf cause Hread Hparse. apply NewXrSession_auth_failure.
    rewrite Hcases, decide_True by done. by rewrite Hread, Hparse.
Qed.

(** C9.  Once the methods are there, a failure at the dial, at session
    creation, at either pipe or at the start of the command makes the
    connect attempt return an error and no handle; the message is the
    text of that stage followed by the cause, no goroutine is started,
    and the message determines both the stage and the cause. *)
Theorem connect_failure_by_stage (host : string) (creds : Creds) (cmd : string)
    (evs : list (event (Signer lib))) (auth : list (AuthMethod (Signer lib)))
    (st : stage) (cause : error) :
  get_auth lib creds = IO evs (Ok auth) →
  first_failure lib host (mkClientConfig (User creds) auth ciphers) cmd = Some (st, cause) →
  returned (NewXrSession lib host creds cmd) = Err (stage_prefix st +:+ cause) ∧
  (EvGo ∉ effects (NewXrSession lib host creds cmd)) ∧
  (∀ st' cause', stage_prefix st' +:+ cause' = stage_prefix st +:+ cause →
     st' = st ∧ cause' = cause).
Proof.
  intros Hauth Hfail.
  destruct (NewXrSession_after_auth host creds cmd evs auth Hauth) as (rest & Heff & Hres).
  rewrite Hfail in Hres. destruct Hres as [Hret Hgo].
  split; [exact Hret|]. split; [|intros st' cause'; apply stage_message_inj].
  rewrite Heff. intros Hin.
  apply elem_of_app in Hin as [Hin|Hin].
  - pose proof (get_auth_cases creds) as Hcases. rewrite Hauth in Hcases.
    case_decide.
    + destruct (ReadFile lib (Keypathname creds)); [|done].
      destruct (ParsePrivateKey lib _); [|done].
      injection Hcases as -> _. set_solver.
    + injection Hcases as -> _. set_solver.
  - set_solver.
Qed.

(** C3, as the code has it.  Credentials with an empty user, or with
    neither password nor key path, are not checked by the connect
    operation: with neither password nor key path [get_auth] returns the
    empty method list without an error, and whenever [get_auth] returns a
    method list the dial is attempted with the given user, empty or not,
    and that list; [NewClient] performs the same events.  The check is
    made where the credentials are read from the environment, which ends
    the process instead of returning them. *)
Theorem credentials_not_validated {wire} (jsonrpc2_NewClient : XrSession lib → wire)
    (host : string) (creds : Creds) (cmd : string) :
  (Password creds = "" ∧ Keypathname creds = "") ∨ User creds = "" →
  (Password creds = "" ∧ Keypathname creds = "" → get_auth lib creds = IO [] (Ok [])) ∧
  (∀ evs auth, get_auth lib creds = IO evs (Ok auth) →
     ∃ rest,
       effects (NewXrSession lib host creds cmd)
       = evs ++ EvDial "tcp" host (mkClientConfig (User creds) auth ciphers) :: rest) ∧
  effects (NewClient lib jsonrpc2_NewClient host creds)
  = effects (NewXrSession lib host creds "run json_rpc_server") ∧
  (∀ Getenv, CredsFromEnv Getenv = Proceed creds →
     False).
Proof.
  intros Hbad. split; [|split; [|split]].
  - intros [Hpw Hkey]. rewrite get_auth_cases.
    rewrite decide_False by (by intros ?).
    by rewrite decide_False by (by intros ?).
  - intros evs auth Hauth.
    destruct (NewXrSession_after_auth host creds cmd evs auth Hauth) as (rest & Heff & _).
    eauto.
  - apply NewClient_effects.
  - intros Getenv. unfold CredsFromEnv. simpl.
    repeat case_decide; try done.
    intros [= <-]. simpl in *. naive_solver.
Qed.

(** *** The process after connect *)

Lemma NewXrSession_fresh (host : string) (creds : Creds) (cmd : string)
    (xrs : XrSession lib) :
  returned (NewXrSession lib host creds cmd) = Ok xrs →
  ready xrs = false ∧ EvGo ∈ effects (NewXrSession lib host creds cmd).
Proof.
  intros Hret. destruct (get_auth lib creds) as [evs [auth|e]] eqn:Hauth.
  - destruct (NewXrSession_after_auth host creds cmd evs auth Hauth) as (rest & Heff & Hres).
    destruct (first_failure _ _ _ _) as [[st cause]|].
    + destruct Hres as [Hres _]. congruence.
    + destruct Hres as [(xrs' & Hret' & Hready) ->].
      rewrite Hret in Hret'. injection Hret' as <-.
      split; [exact Hready|]. rewrite Heff. set_solver.
  - rewrite (NewXrSession_auth_failure host creds cmd evs e Hauth) in Hret. done.
Qed.

Lemma run_app (s1 s2 : list action) (p : process lib) :
  run (s1 ++ s2) p = run s2 (run s1 p).
Proof. apply foldl_app. Qed.

Lemma run_crashed (schedule : list action) (p : process lib) (msg : panic) :
  crashed p = Some msg → run schedule p = p.
Proof.
  intros Hdead. induction schedule as [|a schedule IH]; simpl; [done|].
  assert (Hstay : step p a = p) by (unfold step; by rewrite Hdead).
  rewrite Hstay. exact IH.
Qed.

Lemma run_callers_not_ready (callers : list action) (xrs : XrSession lib)
    (pending : bool) (h : list observation) :
  ready xrs = false →
  Forall (λ a, is_caller a = true) callers →
  run callers (mkProcess lib xrs pending None h)
  = mkProcess lib xrs pending None (h ++ replicate (length callers) Slept).
Proof.
  intros Hready Hcallers. revert h.
  induction Hcallers as [|a callers Ha _ IH]; intros h.
  - simpl. by rewrite app_nil_r.
  - assert (Hstep : step (mkProcess lib xrs pending None h) a
                    = mkProcess lib xrs pending None (h ++ [Slept])).
    { destruct a as [r|r|r]; [done| |];
        unfold step, Read, Write, observe; simpl; by rewrite Hready. }
    change (run (a :: callers) (mkProcess lib xrs pending None h))
      with (run callers (step (mkProcess lib xrs pending None h) a)).
    rewrite Hstep, IH, <- app_assoc. reflexivity.
Qed.

Lemma gated_spawn (xrs : XrSession lib) : ready xrs = false → gated (spawn xrs).
Proof.
  intros Hready. split; simpl.
  - rewrite Hready. split; [done|]. intros [n Hin]. set_solver.
  - intros pre o post Heq. by destruct pre.
Qed.

Lemma gated_observe (p : process lib) (o : observation) :
  gated p →
  (is_transfer o = true → ready (handle p) = true) →
  (∀ n, o ≠ Discarded n) →
  gated (observe lib p o).
Proof.
  intros [Hready Hgate] Ho Hnot. split; simpl.
  - rewrite Hready. split; intros [n Hin]; exists n; [set_solver|].
    apply elem_of_app in Hin as [Hin|Hin]; [done|].
    apply list_elem_of_singleton in Hin. by destruct (Hnot n).
  - apply history_snoc_gate.
    + intros pre post [n Hin]. exists n. set_solver.
    + exact Hgate.
    + intros Ht. apply Hready. by apply Ho.
Qed.

Lemma gated_step (p : process lib) (a : action) : gated p → gated (step p a).
Proof.
  intros Hp. unfold step.
  destruct (crashed p); [done|].
  destruct a as [r|r|r].
  - destruct (preamble_pending p); [|done].
    unfold preamble_goroutine. destruct (r.2) as [err|].
    + exact Hp.
    + destruct Hp as [Hready Hgate]. split; simpl.
      * split; [|done]. intros _. exists (r.1). set_solver.
      * apply history_snoc_gate.
        -- intros pre post [n Hin]. exists n. set_solver.
        -- exact Hgate.
        -- done.
  - unfold Read. destruct (ready (handle p)) eqn:Hr; by apply gated_observe.
  - unfold Write. destruct (ready (handle p)) eqn:Hr; by apply gated_observe.
Qed.

Lemma gated_run (schedule : list action) (p : process lib) :
  gated p → gated (run schedule p).
Proof.
  revert p. induction schedule as [|a schedule IH]; intros p Hp; simpl; [done|].
  apply IH. by apply gated_step.
Qed.

(** C7.  On a handle that [NewXrSession] has returned, however the
    callers and the preamble goroutine are interleaved: a caller inside
    [Read] or [Write] that finds the handle not ready sleeps and nothing
    is transferred; one that finds it ready gets the byte count and
    error of the underlying stream operation unchanged; the handle is
    ready exactly when the preamble read has completed; and so every
    read that returned and every write that went out comes after the
    completion of the preamble read. *)
Theorem readiness_gate (host : string) (creds : Creds) (cmd : string)
    (xrs : XrSession lib) (schedule : list action) :
  returned (NewXrSession lib host creds cmd) = Ok xrs →
  ready xrs = false ∧
  (ready (handle (run schedule (spawn xrs))) = true ↔
     ∃ n, Discarded n ∈ history (run schedule (spawn xrs))) ∧
  (∀ pre o post, history (run schedule (spawn xrs)) = pre ++ o :: post →
     is_transfer o = true → ∃ n, Discarded n ∈ pre) ∧
  (∀ r, crashed (run schedule (spawn xrs)) = None →
     history (step (run schedule (spawn xrs)) (CallerRead r))
     = history (run schedule (spawn xrs))
       ++ [if ready (handle (run schedule (spawn xrs))) then ReadReturned r else Slept] ∧
     history (step (run schedule (spawn xrs)) (CallerWrite r))
     = history (run schedule (spawn xrs))
       ++ [if ready (handle (run schedule (spawn xrs))) then WriteReturned r else Slept]).
Proof.
  intros Hret. destruct (NewXrSession_fresh host creds cmd xrs Hret) as [Hfresh _].
  split; [exact Hfresh|].
  destruct (gated_run schedule (spawn xrs) (gated_spawn xrs Hfresh)) as [Hready Hgate].
  split; [exact Hready|]. split; [exact Hgate|].
  intros r Halive. unfold step, Read, Write. rewrite Halive.
  by destruct (ready (handle (run schedule (spawn xrs)))).
Qed.

(** C2, as the code has it.  When the preamble read fails, the goroutine
    panics with a message naming the cause and the process ends: the
    handle never becomes ready and no read or write on it ever returns,
    with data or with an error; callers that tried before the failure
    only slept. *)
Theorem preamble_failure_is_fatal (xrs : XrSession lib) (before after : list action)
    (n : nat) (cause : error) :
  ready xrs = false →
  Forall (λ a, is_caller a = true) before →
  crashed (run (before ++ PreambleRead (n, Some cause) :: after) (spawn xrs))
  = Some (PanicMsg ("Can't read preamble: " +:+ cause)) ∧
  ready (handle (run (before ++ PreambleRead (n, Some cause) :: after) (spawn xrs))) = false ∧
  history (run (before ++ PreambleRead (n, Some cause) :: after) (spawn xrs))
  = replicate (length before) Slept.
Proof.
  intros Hready Hbefore.
  rewrite run_app. unfold spawn.
  rewrite (run_callers_not_ready before xrs true [] Hready Hbefore).
  change (run (PreambleRead (n, Some cause) :: after) ?p)
    with (run after (step p (PreambleRead (n, Some cause)))).
  rewrite run_crashed with (msg := PanicMsg ("Can't read preamble: " +:+ cause));
    [|reflexivity].
  by repeat split.
Qed.

End SSHFacts.

(** ** Examples against the scripted peer *)

Example make_request_ab :
  make_request [VStr "a"; VNum 1; VStr "b"; VNum 2]
  = Done (<["b" := VNum 2]> (<["a" := VNum 1]> ∅)).
Proof. reflexivity. Qed.

Example set_then_failing_delete :
  run_ops scripted_roundtrip
    [OpSet "p" (VBool true); OpDelete "p"; OpGetChanges; OpCommit "" ""]
    (new_M2MClient [None; Some "bad path"])
  = Done (mkM2MClient
            (RpcClient []
               [("set", <["value" := VBool true]> (<["path" := VStr "p"]> ∅), None);
                ("delete", <["path" := VStr "p"]> ∅, Some "bad path")])
            (Some "bad path") "delete",
          [RVoid; RVoid; RObjects None; RString ""]).
Proof. reflexivity. Qed.

Lemma request_from_pairs_witness :
  ∃ request,
    make_request [VStr "path"; VStr "p"; VStr "path"; VStr "q"] = Done request ∧
    request !! "path" = Some (VStr "q").
Proof.
  destruct (request_from_pairs [("path", VStr "p"); ("path", VStr "q")])
    as (_ & request & Hdone & _ & Hlast).
  exists request. split; [exact Hdone|].
  apply (Hlast [("path", VStr "p")] "path" (VStr "q") []); [reflexivity|].
  simpl. apply not_elem_of_nil.
Defined.

Lemma latch_once_witness :
  ∃ m3,
    run_ops scripted_roundtrip
      ([OpSet "p" (VBool true)] ++ OpDelete "p" :: [OpGetChanges; OpCommit "" ""])
      (new_M2MClient [None; Some "bad path"])
    = Done (m3, [RVoid] ++ RVoid :: [RObjects None; RString ""]) ∧
    sent (Client m3)
    = [("set", <["value" := VBool true]> (<["path" := VStr "p"]> ∅), None);
       ("delete", <["path" := VStr "p"]> ∅, Some "bad path")] ∧
    Error m3 = Some "bad path" ∧
    LastOp m3 = "delete".
Proof.
  destruct (latch_once scripted_roundtrip
              [OpSet "p" (VBool true)] [OpGetChanges; OpCommit "" ""] (OpDelete "p")
              (new_M2MClient [None; Some "bad path"])
              (mkM2MClient
                 (RpcClient [Some "bad path"]
                    [("set", <["value" := VBool true]> (<["path" := VStr "p"]> ∅), None)])
                 None "set")
              (mkM2MClient
                 (RpcClient []
                    [("set", <["value" := VBool true]> (<["path" := VStr "p"]> ∅), None);
                     ("delete", <["path" := VStr "p"]> ∅, Some "bad path")])
                 (Some "bad path") "delete")
              [RVoid] RVoid "bad path")
    as (_ & _ & _ & m3 & Hrun & Hclient & Herr & Hop); try reflexivity.
  exists m3. split; [exact Hrun|]. split; [|split; [exact Herr|exact Hop]].
  rewrite Hclient. reflexivity.
Defined.

(** Counterexample to C4 as worded: after a sequence of successful calls
    only, the last-operation name is not empty. *)
Lemma last_operation_set_on_success :
  ∃ m2m,
    reachable scripted_roundtrip m2m ∧
    run_ops scripted_roundtrip [OpGetVersion] (new_M2MClient [None]) = Done (m2m, [RObject None]) ∧
    Error m2m = None ∧
    LastOp m2m = "get_version" ∧
    LastOp m2m ≠ "".
Proof.
  exists (mkM2MClient (RpcClient [] [("get_version", ∅, None)]) None "get_version").
  split; [|done].
  apply (reachable_op scripted_roundtrip (new_M2MClient [None]) OpGetVersion _ (RObject None)).
  - apply reachable_new.
  - reflexivity.
Qed.

Lemma commit_without_change_is_success_witness :
  ∃ m2m',
    Commit scripted_roundtrip "telemetry bot v0.1" "" (new_M2MClient [None])
    = Done (m2m', "") ∧
    Error m2m' = None.
Proof.
  refine (proj1 (commit_without_change_is_success scripted_roundtrip false
                   "telemetry bot v0.1" "" (new_M2MClient [None]) eq_refl) [] eq_refl).
Defined.

Lemma typed_operations_never_panic_witness :
  ∃ m2m' r,
    run_op scripted_roundtrip (OpGetSchema "RootCfg" "") (new_M2MClient [None])
    = Done (m2m', r).
Proof.
  destruct (typed_operations_never_panic scripted_roundtrip (OpGetSchema "RootCfg" ""))
    as (_ & _ & (request & _ & Hrun) & _).
  destruct (Hrun (new_M2MClient [None]) eq_refl) as (m2m' & r & Hdone & _).
  exists m2m', r. exact Hdone.
Defined.

(** ** Examples against the scripted ssh library *)

Example connect_with_password_and_key :
  NewXrSession demo_lib "router:22" (mkCreds "cisco" "secret" "id_rsa") "run json_rpc_server"
  = IO [EvReadFile "id_rsa";
        EvDial "tcp" "router:22"
          (mkClientConfig "cisco"
             [ssh_Password "secret"; ssh_PublicKeys [Byte.x2d; Byte.x2d]]
             ["aes128-ctr"; "aes128-cbc"]);
        EvNewSession; EvStdinPipe; EvStdoutPipe; EvStart "run json_rpc_server"; EvGo]
       (Ok demo_session).
Proof. reflexivity. Qed.

(** Counterexample to C3 as worded: with an empty user, no password and
    no key path the connect attempt is not rejected; it dials, with an
    empty user and no method, and here it even succeeds. *)
Lemma empty_credentials_reach_the_dial :
  get_auth demo_lib (mkCreds "" "" "") = IO [] (Ok []) ∧
  NewXrSession demo_lib "router:22" (mkCreds "" "" "") "run json_rpc_server"
  = IO [EvDial "tcp" "router:22" (mkClientConfig "" [] ["aes128-ctr"; "aes128-cbc"]);
        EvNewSession; EvStdinPipe; EvStdoutPipe; EvStart "run json_rpc_server"; EvGo]
       (Ok demo_session) ∧
  existsb is_network
    (effects (NewXrSession demo_lib "router:22" (mkCreds "" "" "") "run json_rpc_server"))
  = true.
Proof. repeat split. Qed.

Lemma credentials_not_validated_witness :
  get_auth demo_lib (mkCreds "" "" "") = IO [] (Ok []) ∧
  ∃ rest,
    effects (NewXrSession demo_lib "router:22" (mkCreds "" "" "") "run json_rpc_server")
    = [] ++ EvDial "tcp" "router:22" (mkClientConfig "" [] ["aes128-ctr"; "aes128-cbc"]) :: rest.
Proof.
  destruct (credentials_not_validated demo_lib (λ _ : XrSession demo_lib, tt)
              "router:22" (mkCreds "" "" "") "run json_rpc_server"
              (or_introl (conj eq_refl eq_refl)))
    as (Hauth & Hdial & _).
  split; [exact (Hauth (conj eq_refl eq_refl))|].
  exact (Hdial [] [] (Hauth (conj eq_refl eq_refl))).
Defined.

Lemma auth_methods_from_credentials_witness :
  get_auth demo_lib (mkCreds "cisco" "secret" "")
  = IO [] (Ok [ssh_Password (Signer := Signer demo_lib) "secret"]) ∧
  get_auth demo_lib (mkCreds "cisco" "secret" "id_rsa")
  = IO [EvReadFile "id_rsa"]
       (Ok ([ssh_Password (Signer := Signer demo_lib) "secret"]
            ++ [ssh_PublicKeys [Byte.x2d; Byte.x2d]])) ∧
  NewXrSession demo_lib "router:22" (mkCreds "cisco" "secret" "missing_key") "run json_rpc_server"
  = IO [EvReadFile "missing_key"] (Err ("Can't read private key file: " +:+ "no such file")).
Proof.
  split; [|split].
  - exact (proj1 (auth_methods_from_credentials demo_lib "router:22"
                    (mkCreds "cisco" "secret" "") "run json_rpc_server") eq_refl).
  - refine (proj1 (proj2 (auth_methods_from_credentials demo_lib "router:22"
                            (mkCreds "cisco" "secret" "id_rsa") "run json_rpc_server"))
              _ [Byte.x2d; Byte.x2d] [Byte.x2d; Byte.x2d] eq_refl eq_refl).
    simpl. discriminate.
  - refine (proj1 (proj2 (proj2 (proj2
              (auth_methods_from_credentials demo_lib "router:22"
                 (mkCreds "cisco" "secret" "missing_key") "run json_rpc_server"))))
              _ "no such file" eq_refl).
    simpl. discriminate.
Defined.

Lemma connect_failure_by_stage_witness :
  returned (NewXrSession demo_lib "elsewhere:22" (mkCreds "cisco" "secret" "") "run json_rpc_server")
  = Err "Can't connect: connection refused" ∧
  returned (NewXrSession demo_lib_no_start "router:22" (mkCreds "cisco" "secret" "")
              "run json_rpc_server")
  = Err "Can't start command: exec request failed".
Proof.
  split.
  - exact (proj1 (connect_failure_by_stage demo_lib "elsewhere:22"
                    (mkCreds "cisco" "secret" "") "run json_rpc_server"
                    [] [ssh_Password "secret"] AtDial "connection refused"
                    eq_refl eq_refl)).
  - exact (proj1 (connect_failure_by_stage demo_lib_no_start "router:22"
                    (mkCreds "cisco" "secret" "") "run json_rpc_server"
                    [] [ssh_Password "secret"] AtStart "exec request failed"
                    eq_refl eq_refl)).
Defined.

Example read_before_and_after_preamble :
  history (run [CallerRead (7, None); CallerWrite (9, None); PreambleRead (64, None);
                CallerRead (7, None); CallerWrite (9, None)] (spawn demo_session))
  = [Slept; Slept; Discarded 64; ReadReturned (7, None); WriteReturned (9, None)].
Proof. reflexivity. Qed.

Lemma readiness_gate_witness :
  ready demo_session = false ∧
  history (step (run [CallerRead (7, None); PreambleRead (64, None)] (spawn demo_session))
             (CallerRead (7, None)))
  = history (run [CallerRead (7, None); PreambleRead (64, None)] (spawn demo_session))
    ++ [if ready (handle (run [CallerRead (7, None); PreambleRead (64, None)]
                            (spawn demo_session)))
        then ReadReturned (7, None) else Slept].
Proof.
  destruct (readiness_gate demo_lib "router:22" (mkCreds "cisco" "secret" "id_rsa")
              "run json_rpc_server" demo_session
              [CallerRead (7, None); PreambleRead (64, None)] eq_refl)
    as (Hfresh & _ & _ & Hpoll).
  split; [exact Hfresh|].
  exact (proj1 (Hpoll (7, None) eq_refl)).
Defined.

(** Counterexample to C2 as worded: when the preamble read fails the
    process ends with a panic; the read issued afterwards does not return
    an error, it does not return at all. *)
Lemma preamble_failure_crashes_process :
  crashed (run [PreambleRead (0, Some "EOF"); CallerRead (0, Some "EOF")] (spawn demo_session))
  = Some (PanicMsg "Can't read preamble: EOF") ∧
  history (run [PreambleRead (0, Some "EOF"); CallerRead (0, Some "EOF")] (spawn demo_session))
  = [].
Proof. split; reflexivity. Qed.

Lemma preamble_failure_is_fatal_witness :
  crashed (run ([CallerRead (7, None)] ++ PreambleRead (0, Some "EOF") :: [CallerWrite (9, None)])
             (spawn demo_session))
  = Some (PanicMsg ("Can't read preamble: " +:+ "EOF")) ∧
  history (run ([CallerRead (7, None)] ++ PreambleRead (0, Some "EOF") :: [CallerWrite (9, None)])
             (spawn demo_session))
  = replicate (length [CallerRead (7, None)]) Slept.
Proof.
  destruct (preamble_failure_is_fatal demo_lib demo_session
              [CallerRead (7, None)] [CallerWrite (9, None)] 0 "EOF" eq_refl)
    as (Hcrash & _ & Hhist).
  - repeat constructor.
  - split; [exact Hcrash|exact Hhist].
Defined.

(** * Further properties *)

(** ** The request builder, beyond the typed operations *)

Lemma pair_ind {A} (P : list A → Prop) :
  P [] → (∀ x, P [x]) → (∀ x y l, P l → P (x :: y :: l)) → ∀ l, P l.
Proof.
  intros Hnil Hone Hstep.
  assert (H : ∀ l, P l ∧ ∀ x, P (x :: l)).
  { induction l as [|y l [IH1 IH2]]; [by split|].
    split; [apply IH2|]. intros x. by apply Hstep. }
  intros l. apply H.
Qed.

Lemma make_request_loop_done_iff (args : list value) (request : gmap string value) :
  (∃ request', make_request_loop args request = Done request') ↔
  Nat.Even (length args) ∧
  ∀ i, Nat.Even i → i < length args → ∃ name, args !! i = Some (VStr name).
Proof.
  revert request. induction args as [|x|x y args IH] using pair_ind; intros request.
  - simpl. split; [|by eauto]. intros _. split; [by exists 0|]. intros i _ Hi. simpl in Hi. lia.
  - split.
    + simpl. destruct x; by intros [? ?].
    + intros [[n Hn] _]. simpl in Hn. lia.
  - split.
    + intros Hdone. simpl in Hdone.
      destruct x as [| | |k| |]; try (by destruct Hdone).
      apply IH in Hdone as [Heven Hnames]. split.
      * simpl. by apply Nat.Even_succ_succ.
      * intros i Hi Hlt. destruct i as [|[|i]].
        -- by exists k.
        -- destruct Hi as [n Hn]. lia.
        -- simpl. apply Hnames; [|simpl in Hlt; lia].
           by apply Nat.Even_succ_succ.
    + intros [Heven Hnames].
      destruct (Hnames 0) as [k Hk]; [by exists 0|simpl; lia|].
      simpl in Hk. injection Hk as ->. simpl. apply IH. split.
      * simpl in Heven. by apply Nat.Even_succ_succ.
      * intros i Hi Hlt. apply (Hnames (S (S i))); [|simpl; lia].
        by apply Nat.Even_succ_succ.
Qed.

Lemma make_request_loop_panic (args : list value) (request : gmap string value) (p : panic) :
  make_request_loop args request = Panic p →
  (p = PanicIndexOutOfRange ∧ Nat.Odd (length args)) ∨
  (∃ i v, Nat.Even i ∧ args !! i = Some v ∧ p = PanicNotString v ∧ ∀ name, v ≠ VStr name).
Proof.
  revert request. induction args as [|x|x y args IH] using pair_ind; intros request.
  - done.
  - simpl. destruct x as [| | |k| |]; intros [= <-];
      first [ left; split; [done|by exists 0]
            | right; eexists 0, _; (split; [by exists 0|]); done ].
  - simpl. destruct x as [| | |k| |];
      try (intros [= <-]; right; eexists 0, _; (split; [by exists 0|]); done).
    intros Hp. apply IH in Hp as [[-> Hodd]|(i & v & Hi & Hv & -> & Hns)].
    + left. split; [done|]. simpl. by apply Nat.Odd_succ_succ.
    + right. exists (S (S i)), v. split; [by apply Nat.Even_succ_succ|]. done.
Qed.

(** X1.  [make_request] returns a request exactly when the argument list
    has even length and a string at every even position.  Otherwise it
    panics: with an index out of range only when the length is odd, with a
    failed string assertion only on a value at an even position that is
    not a string. *)
Theorem make_request_succeeds_iff (args : list value) :
  ((∃ request, make_request args = Done request) ↔
   Nat.Even (length args) ∧
   ∀ i, Nat.Even i → i < length args → ∃ name, args !! i = Some (VStr name)) ∧
  (∀ p, make_request args = Panic p →
     (p = PanicIndexOutOfRange ∧ Nat.Odd (length args)) ∨
     (∃ i v, Nat.Even i ∧ args !! i = Some v ∧ p = PanicNotString v ∧
             ∀ name, v ≠ VStr name)).
Proof.
  split.
  - apply make_request_loop_done_iff.
  - intros p. apply make_request_loop_panic.
Qed.

Lemma make_request_succeeds_iff_witness :
  make_request [VStr "path"; VStr "p"; VStr "value"] = Panic PanicIndexOutOfRange ∧
  Nat.Odd (length [VStr "path"; VStr "p"; VStr "value"]).
Proof.
  destruct (proj2 (make_request_succeeds_iff [VStr "path"; VStr "p"; VStr "value"])
              PanicIndexOutOfRange eq_refl)
    as [[_ Hodd]|(i & v & _ & _ & Hp & _)].
  - split; [reflexivity|exact Hodd].
  - discriminate Hp.
Defined.

Lemma foldl_insert_list_to_map (pairs : list (string * value)) :
  NoDup pairs.*1 →
  foldl (λ m p, <[p.1 := p.2]> m) (∅ : gmap string value) pairs = list_to_map pairs.
Proof.
  induction pairs as [|[k v] pairs IH] using rev_ind; [done|].
  rewrite fmap_app, NoDup_app. intros (Hnodup & Hfresh & _).
  rewrite foldl_app. simpl. rewrite IH by done.
  rewrite list_to_map_snoc; [done|].
  intros Hin. apply (Hfresh k Hin). simpl. left.
Qed.

(** X2.  When the argument names are pairwise distinct the request is the
    finite map of the pairs: it has exactly one entry per pair and looking
    up any pair's name gives back that pair's value. *)
Theorem make_request_distinct_names (pairs : list (string * value)) :
  NoDup pairs.*1 →
  make_request (flat_map (λ p, [VStr p.1; p.2]) pairs) = Done (list_to_map pairs) ∧
  size (list_to_map pairs : gmap string value) = length pairs ∧
  ∀ k v, (k, v) ∈ pairs → (list_to_map pairs : gmap string value) !! k = Some v.
Proof.
  intros Hnodup. split; [|split].
  - unfold make_request. rewrite make_request_loop_pairs.
    by rewrite foldl_insert_list_to_map.
  - by apply map_size_list_to_map.
  - intros k v Hin. by apply elem_of_list_to_map_1.
Qed.

Lemma make_request_distinct_names_witness :
  make_request [VStr "filename"; VStr "/tmp/x"; VStr "data"; VStr "hello"]
  = Done (list_to_map [("filename", VStr "/tmp/x"); ("data", VStr "hello")]) ∧
  size (list_to_map [("filename", VStr "/tmp/x"); ("data", VStr "hello")] : gmap string value)
  = 2.
Proof.
  destruct (make_request_distinct_names [("filename", VStr "/tmp/x"); ("data", VStr "hello")])
    as (Hreq & Hsize & _).
  - repeat constructor; set_solver.
  - split; [exact Hreq|exact Hsize].
Defined.

(** ** Sequences of operations, beyond the latch *)

Section ClientMore.

Context {wire : Type}.
Variable roundtrip :
  ∀ s : shape, wire → string → gmap string value → wire * option error * reply s.

Local Abbreviation methods_of calls := (calls.*1.*1).

(** X3.  Whatever the peer answers, a sequence of typed operations returns
    one result per operation, and the round trips it makes are those of a
    prefix of the sequence, in order and one per operation: the whole
    sequence when the client ends without a latched error, none when it
    starts with one. *)
Theorem round_trips_follow_operations (ops : list op) (m2m m2m' : M2MClient wire)
    (rs : list result) :
  run_ops roundtrip ops m2m = Done (m2m', rs) →
  length rs = length ops ∧
  ∃ (n : nat) (calls : list (string * gmap string value * option error)),
    (n ≤ length ops)%nat ∧
    sent (Client m2m') = sent (Client m2m) ++ calls ∧
    methods_of calls = op_method <$> take n ops ∧
    (Error m2m' = None → n = length ops) ∧
    (Error m2m ≠ None → n = 0).
Proof.
  revert m2m m2m' rs. induction ops as [|o ops IH]; intros m m' rs Hrun.
  - injection Hrun as <- <-. split; [done|]. exists 0, [].
    rewrite app_nil_r. by repeat split.
  - destruct (Error m) as [e|] eqn:He.
    + rewrite (run_ops_latched roundtrip (o :: ops) m e He) in Hrun.
      injection Hrun as <- <-. split; [apply (length_fmap zero_result (o :: ops))|].
      exists 0, []. rewrite app_nil_r. repeat split; [lia|congruence].
    + simpl in Hrun.
      destruct (run_op_clean roundtrip o m He)
        as (request & m1 & r & _ & Hop & Hsent & _).
      rewrite Hop in Hrun. simpl in Hrun.
      destruct (run_ops roundtrip ops m1) as [[m2 rs']|] eqn:Hrest; [|done].
      simpl in Hrun. injection Hrun as <- <-.
      destruct (IH m1 m2 rs' Hrest) as (Hlen & n & calls & Hn & Hsent' & Hmeth & Hall & Hnone).
      split; [simpl; by rewrite Hlen|].
      exists (S n), ((op_method o, request, Error m1) :: calls).
      split; [simpl; lia|]. split; [|split; [|split]].
      * rewrite Hsent', Hsent, <- app_assoc. reflexivity.
      * csimpl. f_equal. exact Hmeth.
      * intros Hclean. simpl. f_equal. by apply Hall.
      * done.
Qed.

(** X4.  What goes over the wire for the operations with optional
    arguments, on a client without a latched error.  A commit always
    carries both a comment and a label, also when they are empty strings.
    A schema query carries the path, and the fields only when the fields
    string is not empty. *)
Theorem optional_arguments_on_the_wire (m2m : M2MClient wire) :
  Error m2m = None →
  (∀ replace comment label, ∃ m2m' id err request,
     (if replace : bool then CommitReplace roundtrip else Commit roundtrip) comment label m2m
     = Done (m2m', id) ∧
     sent (Client m2m')
     = sent (Client m2m)
       ++ [(if replace then "commit_replace" else "commit", request, err)] ∧
     dom request = {["comment"; "label"]} ∧
     request !! "comment" = Some (VStr comment) ∧
     request !! "label" = Some (VStr label)) ∧
  (∀ path fields, ∃ m2m' schema err request,
     GetSchema roundtrip path fields m2m = Done (m2m', schema) ∧
     sent (Client m2m') = sent (Client m2m) ++ [("get_schema", request, err)] ∧
     request !! "path" = Some (VStr path) ∧
     request !! "fields" = (if decide (fields = "") then None else Some (VStr fields)) ∧
     dom request = (if decide (fields = "") then {["path"]} else {["path"; "fields"]})).
Proof.
  intros Hclean. split.
  - intros replace comment label.
    destruct replace;
      unfold CommitReplace, Commit, call_for_optional_string; rewrite Hclean; simpl;
      match goal with |- context [Call roundtrip ?s ?c ?m ?r] =>
        pose proof (Call_sent roundtrip s c m r) as Hsent;
        destruct (Call roundtrip s c m r) as [[c' err] rep] end;
      simpl in Hsent; do 4 eexists;
      (split; [reflexivity|]); (split; [exact Hsent|]);
      (split; [set_solver|]); by simplify_map_eq.
  - intros path fields. unfold GetSchema.
    destruct (decide (fields = "")) as [->|Hf].
    + rewrite decide_False by (by intros ?).
      unfold call_for_object. rewrite Hclean. simpl.
      match goal with |- context [Call roundtrip ?s ?c ?m ?r] =>
        pose proof (Call_sent roundtrip s c m r) as Hsent;
        destruct (Call roundtrip s c m r) as [[c' err] rep] end.
      simpl in Hsent. do 4 eexists.
      (split; [reflexivity|]). (split; [exact Hsent|]).
      split; [by simplify_map_eq|]. split; [by simplify_map_eq|]. set_solver.
    + rewrite decide_True by done.
      unfold call_for_object. rewrite Hclean. simpl.
      match goal with |- context [Call roundtrip ?s ?c ?m ?r] =>
        pose proof (Call_sent roundtrip s c m r) as Hsent;
        destruct (Call roundtrip s c m r) as [[c' err] rep] end.
      simpl in Hsent. do 4 eexists.
      (split; [reflexivity|]). (split; [exact Hsent|]).
      split; [by simplify_map_eq|]. split; [by simplify_map_eq|]. set_solver.
Qed.

End ClientMore.

Lemma round_trips_follow_operations_witness :
  ∃ (n : nat) (calls : list (string * gmap string value * option error)),
    (n ≤ 3)%nat ∧
    calls.*1.*1 = op_method <$> take n [OpReplace "p"; OpSet "p" (VBool true); OpCommit "" ""].
Proof.
  destruct (round_trips_follow_operations scripted_roundtrip
              [OpReplace "p"; OpSet "p" (VBool true); OpCommit "" ""]
              (new_M2MClient [None; Some "rejected"])
              (mkM2MClient
                 (RpcClient []
                    [("replace", <["path" := VStr "p"]> ∅, None);
                     ("set", <["value" := VBool true]> (<["path" := VStr "p"]> ∅),
                      Some "rejected")])
                 (Some "rejected") "set")
              [RVoid; RVoid; RString ""] eq_refl)
    as (_ & n & calls & Hn & _ & Hmeth & _).
  exists n, calls. split; [exact Hn|exact Hmeth].
Defined.

Lemma optional_arguments_on_the_wire_witness :
  ∃ m2m' schema err request,
    GetSchema scripted_roundtrip "RootCfg" "" (new_M2MClient [None]) = Done (m2m', schema) ∧
    sent (Client m2m') = [] ++ [("get_schema", request, err)] ∧
    request !! "fields" = None.
Proof.
  destruct (proj2 (optional_arguments_on_the_wire scripted_roundtrip
                     (new_M2MClient [None]) eq_refl) "RootCfg" "")
    as (m2m' & schema & err & request & Hrun & Hsent & _ & Hfields & _).
  exists m2m', schema, err, request. split; [exact Hrun|]. split; [exact Hsent|exact Hfields].
Defined.

(** ** Connecting, beyond the failures *)

Section SSHMore.

Context (lib : ssh_lib).

Local Abbreviation ciphers := ["aes128-ctr"; "aes128-cbc"].

Lemma get_auth_effects (creds : Creds) :
  effects (get_auth lib creds)
  = if decide (Keypathname creds ≠ "") then [EvReadFile (Keypathname creds)] else [].
Proof.
  rewrite get_auth_cases. case_decide; [|done].
  destruct (ReadFile lib (Keypathname creds)) as [buf|e]; [|done].
  by destruct (ParsePrivateKey lib buf).
Qed.

(** X5.  A connect attempt returns a handle exactly when the methods were
    built and no call into the ssh package failed.  It has then done, in
    this order and once each, after reading the key file if a path was
    given: dial over tcp with the user, the methods and the two ciphers,
    session, stdin pipe, stdout pipe, start of the command, start of the
    preamble goroutine; and the handle holds that session and those pipes
    and is not ready. *)
Theorem connect_success (host : string) (creds : Creds) (cmd : string)
    (xrs : XrSession lib) :
  returned (NewXrSession lib host creds cmd) = Ok xrs ↔
  ∃ evs auth client,
    get_auth lib creds = IO evs (Ok auth) ∧
    Dial lib "tcp" host (mkClientConfig (User creds) auth ciphers) = Ok client ∧
    NewSession lib client = Ok (session lib xrs) ∧
    StdinPipe lib (session lib xrs) = Ok (stdin lib xrs) ∧
    StdoutPipe lib (session lib xrs) = Ok (stdout lib xrs) ∧
    Start lib (session lib xrs) cmd = None ∧
    ready xrs = false ∧
    effects (NewXrSession lib host creds cmd)
    = evs ++ [EvDial "tcp" host (mkClientConfig (User creds) auth ciphers);
              EvNewSession; EvStdinPipe; EvStdoutPipe; EvStart cmd; EvGo].
Proof.
  split.
  - intros Hret. destruct (get_auth lib creds) as [evs [auth|e]] eqn:Hauth.
    2: { by rewrite (NewXrSession_auth_failure lib host creds cmd evs e Hauth) in Hret. }
    exists evs, auth. revert Hret.
    unfold NewXrSession, mbind, io_bind. rewrite Hauth.
    unfold wrapping, perform, as_res. simpl.
    destruct (Dial lib "tcp" host _) as [client|e] eqn:Hdial; simpl; [|done].
    destruct (NewSession lib client) as [sess|e] eqn:Hsess; simpl; [|done].
    destruct (StdinPipe lib sess) as [sin|e] eqn:Hin; simpl; [|done].
    destruct (StdoutPipe lib sess) as [sout|e] eqn:Hout; simpl; [|done].
    destruct (Start lib sess cmd) as [e|] eqn:Hstart; simpl; [done|].
    intros [= <-]. simpl. exists client. by repeat split.
  - intros (evs & auth & client & Hauth & Hdial & Hsess & Hin & Hout & Hstart & Hready & _).
    unfold NewXrSession, mbind, io_bind. rewrite Hauth.
    unfold wrapping, perform, as_res. simpl.
    rewrite Hdial. simpl. rewrite Hsess. simpl. rewrite Hin. simpl.
    rewrite Hout. simpl. rewrite Hstart. simpl.
    destruct xrs as [s i o r]. simpl in *. by subst.
Qed.

(** X6.  A connect attempt that fails at a stage has made the calls into
    the ssh package up to that stage and none after it: a refused dial
    requests no session, a refused session no pipe, a missing pipe starts
    no command, and in no case is the goroutine started. *)
Theorem connect_stops_at_failure (host : string) (creds : Creds) (cmd : string)
    (evs : list (event (Signer lib))) (auth : list (AuthMethod (Signer lib)))
    (st : stage) (cause : error) :
  get_auth lib creds = IO evs (Ok auth) →
  first_failure lib host (mkClientConfig (User creds) auth ciphers) cmd = Some (st, cause) →
  effects (NewXrSession lib host creds cmd)
  = evs ++ take (stage_number st)
             [EvDial "tcp" host (mkClientConfig (User creds) auth ciphers);
              EvNewSession; EvStdinPipe; EvStdoutPipe; EvStart cmd; EvGo].
Proof.
  intros Hauth. unfold NewXrSession, first_failure, mbind, io_bind.
  rewrite Hauth. unfold wrapping, perform, as_res. simpl.
  destruct (Dial lib "tcp" host _) as [client|e]; simpl.
  2: { by intros [= <- <-]. }
  destruct (NewSession lib client) as [sess|e]; simpl.
  2: { by intros [= <- <-]. }
  destruct (StdinPipe lib sess) as [sin|e]; simpl.
  2: { by intros [= <- <-]. }
  destruct (StdoutPipe lib sess) as [sout|e]; simpl.
  2: { by intros [= <- <-]. }
  destruct (Start lib sess cmd) as [e|]; simpl; [|done].
  by intros [= <- <-].
Qed.

(** X7.  A connect attempt leaves the network untouched exactly when the
    methods could not be built, and that happens exactly when a key path
    is given and the key file cannot be read or its content cannot be
    parsed; building the methods never touches the network itself. *)
Theorem network_untouched_iff (host : string) (creds : Creds) (cmd : string) :
  existsb is_network (effects (get_auth lib creds)) = false ∧
  (existsb is_network (effects (NewXrSession lib host creds cmd)) = false ↔
   ∃ e, returned (get_auth lib creds) = Err e) ∧
  ((∃ e, returned (get_auth lib creds) = Err e) ↔
   Keypathname creds ≠ "" ∧
   ((∃ e, ReadFile lib (Keypathname creds) = Err e) ∨
    (∃ buf e, ReadFile lib (Keypathname creds) = Ok buf ∧ ParsePrivateKey lib buf = Err e))).
Proof.
  split; [|split].
  - rewrite get_auth_effects. by case_decide.
  - destruct (get_auth lib creds) as [evs [auth|e]] eqn:Hauth; simpl.
    + destruct (NewXrSession_after_auth lib host creds cmd evs auth Hauth) as (rest & -> & _).
      split; [|by intros [e ?]].
      rewrite existsb_app. simpl. by rewrite orb_true_r.
    + rewrite (NewXrSession_auth_failure lib host creds cmd evs e Hauth). simpl.
      split; [by eauto|]. intros _.
      pose proof (get_auth_effects creds) as Heff. rewrite Hauth in Heff. simpl in Heff.
      rewrite Heff. by case_decide.
  - rewrite get_auth_cases. case_decide as Hkey.
    + destruct (ReadFile lib (Keypathname creds)) as [buf|e]; simpl.
      * destruct (ParsePrivateKey lib buf) as [key|e] eqn:Hparse; simpl.
        -- split; [by intros [? ?]|].
           intros (_ & [[e ?]|(buf' & e & [= <-] & Hp)]); [done|congruence].
        -- split; [|by eauto]. intros _. split; [done|]. right. eauto.
      * split; [|by eauto]. intros _. split; [done|]. left. eauto.
    + simpl. split; [by intros [? ?]|]. by intros [? _].
Qed.

End SSHMore.

Lemma connect_success_witness :
  ∃ evs auth client,
    get_auth demo_lib (mkCreds "cisco" "secret" "") = IO evs (Ok auth) ∧
    Dial demo_lib "tcp" "router:22" (mkClientConfig "cisco" auth ["aes128-ctr"; "aes128-cbc"])
    = Ok client.
Proof.
  destruct (proj1 (connect_success demo_lib "router:22" (mkCreds "cisco" "secret" "")
                     "run json_rpc_server" demo_session) eq_refl)
    as (evs & auth & client & Hauth & Hdial & _).
  exists evs, auth, client. split; [exact Hauth|exact Hdial].
Defined.

Lemma connect_stops_at_failure_witness :
  effects (NewXrSession demo_lib "elsewhere:22" (mkCreds "cisco" "secret" "") "run json_rpc_server")
  = [] ++ take (stage_number AtDial)
            [EvDial "tcp" "elsewhere:22"
               (mkClientConfig "cisco" [ssh_Password "secret"] ["aes128-ctr"; "aes128-cbc"]);
             EvNewSession; EvStdinPipe; EvStdoutPipe; EvStart "run json_rpc_server"; EvGo].
Proof.
  exact (connect_stops_at_failure demo_lib "elsewhere:22" (mkCreds "cisco" "secret" "")
           "run json_rpc_server" [] [ssh_Password "secret"] AtDial "connection refused"
           eq_refl eq_refl).
Defined.

Lemma network_untouched_iff_witness :
  existsb is_network
    (effects (NewXrSession demo_lib "router:22" (mkCreds "cisco" "" "missing_key")
                "run json_rpc_server"))
  = false.
Proof.
  apply (proj2 (proj1 (proj2 (network_untouched_iff demo_lib "router:22"
                                (mkCreds "cisco" "" "missing_key") "run json_rpc_server")))).
  exists "Can't read private key file: no such file". reflexivity.
Defined.

(** ** The client constructor and the process after connect *)

Section SessionMore.

Context (lib : ssh_lib).

(** X8.  [NewClient] fails exactly when the connect attempt fails, with
    the same error and no client.  A client it returns is built on the
    codec of the handle of that attempt, has no latched error, an empty
    last-operation name and no round trip made; the remote command it has
    started, once, is [run json_rpc_server]. *)
Theorem NewClient_result {wire}
    (roundtrip : ∀ s : shape, wire → string → gmap string value → wire * option error * reply s)
    (jsonrpc2_NewClient : XrSession lib → wire) (host : string) (creds : Creds) :
  (∀ e, returned (NewClient lib jsonrpc2_NewClient host creds) = Err e ↔
        returned (NewXrSession lib host creds "run json_rpc_server") = Err e) ∧
  (∀ m2m, returned (NewClient lib jsonrpc2_NewClient host creds) = Ok m2m →
     ∃ xrs pre,
       returned (NewXrSession lib host creds "run json_rpc_server") = Ok xrs ∧
       m2m = mkM2MClient (RpcClient (jsonrpc2_NewClient xrs) []) None "" ∧
       reachable roundtrip m2m ∧
       effects (NewClient lib jsonrpc2_NewClient host creds)
       = pre ++ [EvStart "run json_rpc_server"; EvGo] ∧
       ∀ cmd, EvStart cmd ∉ pre).
Proof.
  pose proof (NewClient_effects lib jsonrpc2_NewClient host creds) as [Heff _].
  split.
  - intros e. unfold NewClient, mbind, io_bind.
    destruct (returned (NewXrSession lib host creds "run json_rpc_server")) as [xrs|e'];
      simpl; [done|]. split; by intros [= ->].
  - intros m2m Hret. rewrite Heff. revert Hret.
    unfold NewClient, mbind, io_bind.
    destruct (returned (NewXrSession lib host creds "run json_rpc_server")) as [xrs|e'] eqn:Hx;
      simpl; [|done].
    intros [= <-].
    apply connect_success in Hx as (evs & auth & client & Hauth & _ & _ & _ & _ & _ & _ & ->).
    exists xrs. eexists (evs ++ [_; _; _; _]). split; [done|]. split; [done|].
    split; [apply reachable_new|]. split; [by rewrite <- app_assoc|].
    intros cmd Hin. apply elem_of_app in Hin as [Hin|Hin]; [|set_solver].
    pose proof (get_auth_effects lib creds) as Hevs. rewrite Hauth in Hevs. simpl in Hevs.
    subst evs. case_decide; set_solver.
Qed.



(** The goroutine discards at most once: while it is pending nothing has
    been discarded, and once it has ended nothing more is. *)
Lemma discarded_once_step (p : process lib) (a : action) :
  (length (filter (λ o, is_discarded o = true) (history p))
     + (if preamble_pending p then 1 else 0) ≤ 1)%nat →
  (length (filter (λ o, is_discarded o = true) (history (step p a)))
     + (if preamble_pending (step p a) then 1 else 0) ≤ 1)%nat.
Proof.
  intros Hp. unfold step. destruct (crashed p); [done|].
  destruct a as [r|r|r].
  - destruct (preamble_pending p) eqn:Hpend; [|by rewrite Hpend].
    unfold preamble_goroutine. destruct (r.2); simpl.
    + lia.
    + rewrite filter_app, length_app. simpl. lia.
  - unfold Read. destruct (ready (handle p)); simpl;
      rewrite filter_app, length_app; simpl; lia.
  - unfold Write. destruct (ready (handle p)); simpl;
      rewrite filter_app, length_app; simpl; lia.
Qed.

Lemma ready_stays_step (p : process lib) (a : action) :
  ready (handle p) = true → ready (handle (step p a)) = true.
Proof.
  intros Hp. unfold step. destruct (crashed p); [done|].
  destruct a as [r|r|r].
  - destruct (preamble_pending p); [|done].
    unfold preamble_goroutine. by destruct (r.2).
  - unfold Read. by rewrite Hp.
  - unfold Write. by rewrite Hp.
Qed.

(** X10.  However the process runs, the handle goes from not ready to
    ready at most once and never back: the preamble is discarded at most
    once, and a handle that is ready stays ready under any continuation. *)
Theorem ready_once_and_for_all (xrs : XrSession lib) (schedule more : list action) :
  (length (filter (λ o, is_discarded o = true) (history (run schedule (spawn xrs)))) ≤ 1)%nat ∧
  (ready (handle (run schedule (spawn xrs))) = true →
   ready (handle (run (schedule ++ more) (spawn xrs))) = true).
Proof.
  split.
  - assert (H : ∀ s (p : process lib),
               (length (filter (λ o, is_discarded o = true) (history p))
                  + (if preamble_pending p then 1 else 0) ≤ 1)%nat →
               (length (filter (λ o, is_discarded o = true) (history (run s p)))
                  + (if preamble_pending (run s p) then 1 else 0) ≤ 1)%nat).
    { induction s as [|a s IH]; intros p Hp; [done|].
      apply (IH (step p a)). by apply discarded_once_step. }
    specialize (H schedule (spawn xrs)). simpl in H. lia.
  - rewrite run_app. generalize (run schedule (spawn xrs)). intros p.
    revert p. induction more as [|a more IH]; intros p Hp; [done|].
    apply (IH (step p a)). by apply ready_stays_step.
Qed.

End SessionMore.

Lemma NewClient_result_witness :
  ∃ xrs pre,
    returned (NewXrSession demo_lib "router:22" (mkCreds "cisco" "secret" "")
                "run json_rpc_server") = Ok xrs ∧
    effects (NewClient demo_lib (λ _, [None (A := error)]) "router:22"
               (mkCreds "cisco" "secret" ""))
    = pre ++ [EvStart "run json_rpc_server"; EvGo].
Proof.
  destruct (proj2 (NewClient_result demo_lib scripted_roundtrip (λ _, [None (A := error)])
                     "router:22" (mkCreds "cisco" "secret" ""))
              (new_M2MClient [None]) eq_refl)
    as (xrs & pre & Hx & _ & _ & Heff & _).
  exists xrs, pre. split; [exact Hx|exact Heff].
Defined.


Lemma ready_once_and_for_all_witness :
  ready (handle (run ([PreambleRead (64, None)] ++ [PreambleRead (0, Some "EOF")])
                   (spawn demo_session))) = true.
Proof.
  exact (proj2 (ready_once_and_for_all demo_lib demo_session
                  [PreambleRead (64, None)] [PreambleRead (0, Some "EOF")]) eq_refl).
Defined.

(** ** Credentials from the environment *)

(** X11.  [CredsFromEnv] returns credentials exactly when the user
    variable is set and the password or the key file variable is; the
    credentials are then the three variables as they are.  An unset user
    is reported first.  Credentials it returns always give at least one
    authentication method when the methods can be built, and the dial is
    then made with their non-empty user. *)
Theorem env_credentials_are_usable (lib : ssh_lib) (Getenv : string → string) :
  (∀ creds, CredsFromEnv Getenv = Proceed creds ↔
     creds = mkCreds (Getenv "SSH_USER") (Getenv "SSH_PASSWORD") (Getenv "SSH_KEYFILE") ∧
     User creds ≠ "" ∧ (Password creds ≠ "" ∨ Keypathname creds ≠ "")) ∧
  (Getenv "SSH_USER" = "" →
   CredsFromEnv Getenv = Fatal "SSH_USER environment variable must be set") ∧
  (∀ creds evs auth host cmd,
     CredsFromEnv Getenv = Proceed creds →
     get_auth lib creds = IO evs (Ok auth) →
     auth ≠ [] ∧ User creds ≠ "" ∧
     ∃ rest,
       effects (NewXrSession lib host creds cmd)
       = evs ++ EvDial "tcp" host
                  (mkClientConfig (User creds) auth ["aes128-ctr"; "aes128-cbc"]) :: rest).
Proof.
  assert (Hiff : ∀ creds, CredsFromEnv Getenv = Proceed creds ↔
     creds = mkCreds (Getenv "SSH_USER") (Getenv "SSH_PASSWORD") (Getenv "SSH_KEYFILE") ∧
     User creds ≠ "" ∧ (Password creds ≠ "" ∨ Keypathname creds ≠ "")).
  { intros creds. unfold CredsFromEnv. simpl.
    destruct (decide (Getenv "SSH_USER" = "")) as [Hu|Hu].
    { split; [done|]. by intros (-> & ? & _). }
    destruct (decide (Getenv "SSH_PASSWORD" = "" ∧ Getenv "SSH_KEYFILE" = "")) as [Hpk|Hpk].
    { split; [done|]. intros (-> & _ & [?|?]); simpl in *; naive_solver. }
    split.
    - intros [= <-]. simpl. split; [done|]. split; [done|].
      destruct (decide (Getenv "SSH_PASSWORD" = "")); [|by left].
      right. naive_solver.
    - by intros (-> & _). }
  split; [exact Hiff|]. split.
  - intros Hu. unfold CredsFromEnv. simpl. by rewrite decide_True.
  - intros creds evs auth host cmd Hcreds Hauth.
    apply Hiff in Hcreds as (_ & Huser & Hsome).
    split; [|split; [exact Huser|]].
    + pose proof (get_auth_cases lib creds) as Hcases. rewrite Hauth in Hcases.
      destruct (decide (Keypathname creds ≠ "")) as [Hkey|Hkey].
      * destruct (ReadFile lib (Keypathname creds)) as [buf|?]; [|done].
        destruct (ParsePrivateKey lib buf) as [key|?]; [|done].
        injection Hcases as _ ->. by intros [_ [=]]%app_eq_nil.
      * injection Hcases as _ ->.
        destruct Hsome as [Hpw|?]; [|done]. by rewrite decide_True.
    + destruct (NewXrSession_after_auth lib host creds cmd evs auth Hauth) as (rest & Heff & _).
      eauto.
Qed.

Lemma env_credentials_are_usable_witness :
  [ssh_Password (Signer := Signer demo_lib) "secret"] ≠ [] ∧ User (mkCreds "cisco" "secret" "") ≠ "".
Proof.
  assert (Henv : CredsFromEnv
                   (λ name, if String.eqb name "SSH_USER" then "cisco"
                            else if String.eqb name "SSH_PASSWORD" then "secret" else "")
                 = Proceed (mkCreds "cisco" "secret" "")) by reflexivity.
  destruct (proj2 (proj2 (env_credentials_are_usable demo_lib _))
              (mkCreds "cisco" "secret" "") [] [ssh_Password "secret"]
              "router:22" "run json_rpc_server" Henv eq_refl)
    as (Hauth & Huser & _).
  split; [exact Hauth|exact Huser].
Defined.

(** ** The helpers of xrm2m_util and the collector update *)

Section UtilFacts.

Context {wire : Type}.
Variable roundtrip :
  ∀ s : shape, wire → string → gmap string value → wire * option error * reply s.
Variable MarshalIndent : TelemetryPolicy → string → string → res (list Byte.byte).
Variable Marshal : Collector → list Byte.byte * option error.
Variable range_map : gmap string value → list (string * value).

(** X12.  [UpdateTelemetryPolicy] does nothing on a client with a latched
    error.  On a clean client, a policy that cannot be marshalled latches
    the marshalling error under the name [UpdateTelemetryPolicy] without
    any round trip, and every typed operation after that is skipped; a
    policy that can be marshalled makes exactly one [write_file] round
    trip, with the file name built from the policy name and the marshalled
    bytes as data. *)
Theorem UpdateTelemetryPolicy_cases (m2m : M2MClient wire) (policy : TelemetryPolicy) :
  (∀ e, Error m2m = Some e →
     UpdateTelemetryPolicy roundtrip MarshalIndent m2m policy = Done (m2m, tt)) ∧
  (∀ err, Error m2m = None → MarshalIndent policy "" "  " = Err err →
     ∃ m2m',
       UpdateTelemetryPolicy roundtrip MarshalIndent m2m policy = Done (m2m', tt) ∧
       Client m2m' = Client m2m ∧
       Error m2m' = Some err ∧
       LastOp m2m' = "UpdateTelemetryPolicy" ∧
       ∀ ops, run_ops roundtrip ops m2m' = Done (m2m', zero_result <$> ops)) ∧
  (∀ data, Error m2m = None → MarshalIndent policy "" "  " = Ok data →
     ∃ m2m' request,
       UpdateTelemetryPolicy roundtrip MarshalIndent m2m policy = Done (m2m', tt) ∧
       sent (Client m2m') = sent (Client m2m) ++ [("write_file", request, Error m2m')] ∧
       LastOp m2m' = "write_file" ∧
       dom request = {["filename"; "data"]} ∧
       request !! "filename" = Some (VStr ("/telemetry/policies/" +:+ Name policy +:+ ".policy")) ∧
       request !! "data" = Some (VStr (String.string_of_list_byte data))).
Proof.
  unfold UpdateTelemetryPolicy. split; [|split].
  - intros e He. by rewrite He.
  - intros err Hclean Hm. rewrite Hclean, Hm. eexists. split; [reflexivity|].
    repeat split. intros ops. by eapply run_ops_latched.
  - intros data Hclean Hm. rewrite Hclean, Hm.
    unfold WriteFile, call_for_void. rewrite Hclean. simpl.
    match goal with |- context [Call roundtrip ?s ?c ?m ?r] =>
      pose proof (Call_sent roundtrip s c m r) as Hsent;
      destruct (Call roundtrip s c m r) as [[c' err] rep] end.
    simpl in Hsent. do 2 eexists. split; [reflexivity|]. split; [exact Hsent|].
    split; [done|]. split; [set_solver|]. by simplify_map_eq.
Qed.

(** X13.  [CommitAndPrintOutcome] prints exactly one line.  On a client
    with a latched error it makes no round trip and reports that earlier
    error with the name of the operation that latched it.  On a clean
    client it makes one [commit] round trip in which its argument is sent
    as the comment and the label is empty, and then reports the error of
    that round trip under the name [commit], or the new revision id, or,
    when the id is missing or empty, that no commit was required. *)
Theorem CommitAndPrintOutcome_cases (m2m : M2MClient wire) (label : string) :
  (∀ e, Error m2m = Some e →
     CommitAndPrintOutcome roundtrip m2m label
     = Done (m2m, [Printf ("Error during %s: %s" +:+ newline) [VStr (LastOp m2m); VStr e]])) ∧
  (Error m2m = None →
   ∃ m2m' w err revision,
     roundtrip ShOptString (conn (Client m2m)) "commit"
       (<["label" := VStr ""]> (<["comment" := VStr label]> ∅)) = (w, err, revision) ∧
     sent (Client m2m')
     = sent (Client m2m)
       ++ [("commit", <["label" := VStr ""]> (<["comment" := VStr label]> ∅), err)] ∧
     Error m2m' = err ∧
     CommitAndPrintOutcome roundtrip m2m label
     = Done (m2m',
             match err with
             | Some e => [Printf ("Error during %s: %s" +:+ newline) [VStr "commit"; VStr e]]
             | None =>
                 if decide (default "" revision = "")
                 then [Println [VStr "No commit required"]]
                 else [Println [VStr "New commit "; VStr (default "" revision)]]
             end)).
Proof.
  unfold CommitAndPrintOutcome, Commit, call_for_optional_string. split.
  - intros e He. rewrite He. simpl. by rewrite He.
  - intros Hclean. rewrite Hclean. simpl. unfold Call.
    destruct (roundtrip ShOptString (conn (Client m2m)) "commit" _) as [[w err] revision].
    simpl.
    exists (mkM2MClient
              (RpcClient w
                 (sent (Client m2m)
                  ++ [("commit", <["label" := VStr ""]> (<["comment" := VStr label]> ∅), err)]))
              err "commit"), w, err, revision.
    split; [reflexivity|]. split; [reflexivity|].
    split; [reflexivity|]. by destruct err, revision.
Qed.



End UtilFacts.

Section CollectorFacts.

Context {wire : Type}.
Variable roundtrip :
  ∀ s : shape, wire → string → gmap string value → wire * option error * reply s.
Variable Marshal : Collector → list Byte.byte * option error.
Variable range_map : gmap string value → list (string * value).

Local Abbreviation set_ops collectors :=
  ((λ collector,
      OpSet (path_root +:+ "(" +:+ String.string_of_list_byte (Marshal collector).1 +:+ ")")
        (VBool true)) <$> collectors).






End CollectorFacts.

(** ** Examples for the helpers *)

Lemma UpdateTelemetryPolicy_cases_witness :
  ∃ m2m',
    UpdateTelemetryPolicy scripted_roundtrip (λ _ _ _, Err "unsupported type")
      (new_M2MClient [None (A := error)]) (mkTelemetryPolicy "example_policy" VNil None)
    = Done (m2m', tt) ∧
    LastOp m2m' = "UpdateTelemetryPolicy".
Proof.
  destruct (proj1 (proj2 (UpdateTelemetryPolicy_cases scripted_roundtrip
                            (λ _ _ _, Err "unsupported type")
                            (new_M2MClient [None (A := error)])
                            (mkTelemetryPolicy "example_policy" VNil None)))
              "unsupported type" eq_refl eq_refl)
    as (m2m' & Hrun & _ & _ & Hop & _).
  exists m2m'. split; [exact Hrun|exact Hop].
Defined.

Lemma CommitAndPrintOutcome_cases_witness :
  CommitAndPrintOutcome scripted_roundtrip
    (mkM2MClient (RpcClient [] [("set", ∅, Some "bad path")]) (Some "bad path") "set")
    "telemetry bot v0.1"
  = Done (mkM2MClient (RpcClient [] [("set", ∅, Some "bad path")]) (Some "bad path") "set",
          [Printf ("Error during %s: %s" +:+ newline) [VStr "set"; VStr "bad path"]]).
Proof.
  exact (proj1 (CommitAndPrintOutcome_cases scripted_roundtrip
                  (mkM2MClient (RpcClient [] [("set", ∅, Some "bad path")])
                     (Some "bad path") "set")
                  "telemetry bot v0.1") "bad path" eq_refl).
Defined.


Example update_two_collectors :
  update_collectors scripted_roundtrip (λ c, (String.list_byte_of_string (Address c), None))
    map_to_list (new_M2MClient [None; None; Some "rejected"])
    (Some [mkCollector "10.0.0.1" 5555; mkCollector "10.0.0.2" 5555])
  = Done (mkM2MClient
            (RpcClient []
               [("replace", <["path" := VStr path_root]> ∅, None);
                ("set",
                 <["value" := VBool true]>
                   (<["path" := VStr (path_root +:+ "(10.0.0.1)")]> ∅), None);
                ("set",
                 <["value" := VBool true]>
                   (<["path" := VStr (path_root +:+ "(10.0.0.2)")]> ∅), Some "rejected")])
            (Some "rejected") "set",
          [Printf ("Error during %s: %s" +:+ newline) [VStr "set"; VStr "rejected"]]).
Proof. reflexivity. Qed.


(** ** The latch under all the code that writes it *)

Section RepositoryFacts.

Context {wire : Type}.
Variable roundtrip :
  ∀ s : shape, wire → string → gmap string value → wire * option error * reply s.
Variable MarshalIndent : TelemetryPolicy → string → string → res (list Byte.byte).

Local Abbreviation reachable_client := (reachable_client roundtrip MarshalIndent).

Lemma op_method_not_empty (o : op) : op_method o ≠ "".
Proof. by destruct o. Qed.

Lemma names_the_failure_op (o : op) (m2m m2m' : M2MClient wire) (r : result) :
  names_the_failure m2m → run_op roundtrip o m2m = Done (m2m', r) → names_the_failure m2m'.
Proof.
  intros [Hmeth Hinv] Hrun.
  destruct (Error m2m) as [e|] eqn:He.
  - rewrite (run_op_latched roundtrip o m2m e He) in Hrun. injection Hrun as <- _.
    split; [exact Hmeth|]. by rewrite He.
  - destruct Hinv as [_ Hok].
    destruct (run_op_clean roundtrip o m2m He) as (request & m & r' & _ & Hrun' & Hsent & Hlast).
    rewrite Hrun in Hrun'. injection Hrun' as <- <-.
    split.
    + rewrite Hsent. apply Forall_app. split; [exact Hmeth|].
      apply Forall_singleton. by exists o.
    + destruct (Error m2m') as [e|] eqn:He'.
      * right. exists (sent (Client m2m)), request. rewrite Hlast. by split.
      * split.
        -- unfold last_method. by rewrite Hsent, last_snoc.
        -- unfold all_succeeded. rewrite Hsent. apply Forall_app. split; [exact Hok|].
           by apply Forall_singleton.
Qed.

Lemma UpdateTelemetryPolicy_latched (m2m : M2MClient wire) (policy : TelemetryPolicy)
    (e : error) :
  Error m2m = Some e →
  UpdateTelemetryPolicy roundtrip MarshalIndent m2m policy = Done (m2m, tt).
Proof. intros He. unfold UpdateTelemetryPolicy. by rewrite He. Qed.

Lemma names_the_failure_policy (policy : TelemetryPolicy) (m2m m2m' : M2MClient wire) :
  names_the_failure m2m →
  UpdateTelemetryPolicy roundtrip MarshalIndent m2m policy = Done (m2m', tt) →
  names_the_failure m2m'.
Proof.
  intros Hinv Hrun.
  destruct (Error m2m) as [e|] eqn:He.
  - rewrite (UpdateTelemetryPolicy_latched m2m policy e He) in Hrun.
    by injection Hrun as <-.
  - unfold UpdateTelemetryPolicy in Hrun. rewrite He in Hrun.
    destruct (MarshalIndent policy "" "  ") as [data|err].
    + apply (names_the_failure_op
               (OpWriteFile ("/telemetry/policies/" +:+ Name policy +:+ ".policy") data)
               m2m m2m' RVoid Hinv).
      simpl. unfold returning. by rewrite Hrun.
    + injection Hrun as <-. destruct Hinv as [Hmeth Hinv]. rewrite He in Hinv.
      split; [exact Hmeth|]. simpl. left. by split; [|apply Hinv].
Qed.

Lemma reachable_client_names_the_failure (m2m : M2MClient wire) :
  reachable_client m2m → names_the_failure m2m.
Proof.
  induction 1 as [w|m o m' r _ IH Hrun|m policy m' _ IH Hrun].
  - split; [by apply Forall_nil|]. simpl. split; [done|]. by apply Forall_nil.
  - by eapply names_the_failure_op.
  - by eapply names_the_failure_policy.
Qed.

(** C4, as the code has it.  For every client the repository's code can
    produce (a new client, then typed operations and
    [UpdateTelemetryPolicy] in any order): a latched error never resets,
    for every typed operation and every [UpdateTelemetryPolicy] leaves a
    client with a latched error exactly as it is.  The last-operation
    name is empty exactly when no round trip has been made and no error is
    latched.  Without a latched error it names the most recent round trip,
    and every round trip so far has succeeded.  With a latched error it
    names what produced the error: the method of the round trip that
    returned it, which is then the most recent one and the only one that
    failed, or [UpdateTelemetryPolicy] when it is a marshalling error, in
    which case no round trip has failed. *)
Theorem latched_error_names_its_cause (m2m : M2MClient wire) :
  reachable_client m2m →
  (∀ e, Error m2m = Some e →
     (∀ ops, run_ops roundtrip ops m2m = Done (m2m, zero_result <$> ops)) ∧
     (∀ policy, UpdateTelemetryPolicy roundtrip MarshalIndent m2m policy = Done (m2m, tt))) ∧
  (LastOp m2m = "" ↔ sent (Client m2m) = [] ∧ Error m2m = None) ∧
  (Error m2m = None →
     LastOp m2m = last_method (sent (Client m2m)) ∧ all_succeeded (sent (Client m2m))) ∧
  (∀ e, Error m2m = Some e →
     (LastOp m2m = "UpdateTelemetryPolicy" ∧ all_succeeded (sent (Client m2m))) ∨
     (∃ calls request o,
        sent (Client m2m) = calls ++ [(LastOp m2m, request, Some e)] ∧
        all_succeeded calls ∧
        LastOp m2m = op_method o)).
Proof.
  intros Hreach.
  destruct (reachable_client_names_the_failure m2m Hreach) as [Hmeth Hinv].
  split; [|split; [|split]].
  - intros e He. split.
    + intros ops. by eapply run_ops_latched.
    + intros policy. by eapply UpdateTelemetryPolicy_latched.
  - destruct (Error m2m) as [e|] eqn:He.
    + split; [|by intros [_ ?]]. intros Hempty.
      destruct Hinv as [[Hpol _]|(calls & request & Hsent & _)].
      * by rewrite Hempty in Hpol.
      * rewrite Hsent in Hmeth. apply Forall_app in Hmeth as [_ Hlast].
        apply Forall_singleton in Hlast as [o Ho]. simpl in Ho.
        rewrite Hempty in Ho. by destruct (op_method_not_empty o).
    + destruct Hinv as [Hop _]. rewrite Hop. unfold last_method. split.
      * intros Hempty. split; [|done].
        destruct (sent (Client m2m)) as [|c cs _] using rev_ind; [done|].
        rewrite last_snoc in Hempty. destruct c as [[method request] err].
        apply Forall_app in Hmeth as [_ Hlast].
        apply Forall_singleton in Hlast as [o Ho]. simpl in Ho.
        subst method. by destruct (op_method_not_empty o).
      * by intros [-> _].
  - intros Hclean. by rewrite Hclean in Hinv.
  - intros e He. rewrite He in Hinv.
    destruct Hinv as [Hpol|(calls & request & Hsent & Hok)]; [by left|].
    right. exists calls, request.
    rewrite Hsent in Hmeth. apply Forall_app in Hmeth as [_ Hlast].
    apply Forall_singleton in Hlast as [o Ho]. simpl in Ho.
    exists o. by repeat split.
Qed.

End RepositoryFacts.

(** A client whose policy could not be marshalled: the name latched is
    not that of a round trip, and later operations are skipped. *)
Lemma latched_error_names_its_cause_witness :
  run_ops scripted_roundtrip [OpGetVersion; OpCommit "" ""]
    (mkM2MClient (RpcClient [None] []) (Some "unsupported type") "UpdateTelemetryPolicy")
  = Done (mkM2MClient (RpcClient [None] []) (Some "unsupported type") "UpdateTelemetryPolicy",
          zero_result <$> [OpGetVersion; OpCommit "" ""]).
Proof.
  refine (proj1 (proj1 (latched_error_names_its_cause scripted_roundtrip
                          (λ _ _ _, Err "unsupported type")
                          (mkM2MClient (RpcClient [None] []) (Some "unsupported type")
                             "UpdateTelemetryPolicy") _)
                   "unsupported type" eq_refl) [OpGetVersion; OpCommit "" ""]).
  apply (reachable_client_policy scripted_roundtrip (λ _ _ _, Err "unsupported type")
           (new_M2MClient [None]) (mkTelemetryPolicy "example_policy" VNil None)).
  - apply reachable_client_new.
  - reflexivity.
Defined.
